(** * A file-backed to-do list: the task store and its command interpreter

    Shallow embedding of [todo_app.py] (class [TodoApp] and [main]) and the
    properties its specification states about it.

    - Text.  A Python [str] is a sequence of Unicode code points; it is
      modelled as [list N], one number per code point.  Surrogate code points
      (U+D800..U+DFFF) are legal elements of a [str].
    - Files.  The file system maps a path to the text of the file, as
      [read()] on a file opened in text mode returns it.
    - Tasks.  A task is the dict [{'id': int, 'description': str,
      'completed': bool}]; it is modelled as a record.  Every dict is
      referenced from exactly one slot of [self.tasks], so the list of
      records determines the store.
    - json.  [json.dump] and [json.load] are modelled on text, following
      CPython's encoder ([ensure_ascii], separators [", "] and [": "]) and
      its scanner.
    - Failures.  The definitions come in two layers.  The first describes
      the program where no call into its environment fails: the file is
      read and written, standard output takes every text, and the scanner
      of [json.load] has room for every nesting.  Module [Fallible]
      describes the same code where these calls can raise, with the [try]
      blocks of the source; the first layer is what it does when none of
      them raises ([main_without_failures]).
    - Not modelled: the bytes of a file (a file that cannot be decoded is
      a file whose reading raises), a write that fails after the file was
      opened, an environment that changes during the run, and the digit
      limit of the conversion between [int] and [str]. *)

From Stdlib Require Import ZArith NArith Lia String Ascii.
From Stdlib Require Import DecimalN DecimalZ DecimalFacts.
From stdpp Require Import base option list gmap.

Set Warnings "-register-all".
Local Open Scope N_scope.

(* ===================================================================== *)
(** * Part I: definitions                                                 *)
(* ===================================================================== *)

(** ** Text *)

(** A Python [str]: the list of its code points. *)
Abbreviation str := (list N).

(** The text of a Rocq string literal (one code point per character). *)
Definition u (s : string) : str := N_of_ascii <$> list_ascii_of_string s.

(** Code points the json codec looks at. *)
Definition QUOTE : N := 34.
Definition BACKSLASH : N := 92.

(** Every element of a Python [str] is below 0x110000. *)
Definition is_str (s : str) : Prop := Forall (λ c, c < 0x110000) s.

Definition is_high_surrogate (c : N) : bool := (0xD800 <=? c) && (c <=? 0xDBFF).
Definition is_low_surrogate (c : N) : bool := (0xDC00 <=? c) && (c <=? 0xDFFF).

(** [surrogate_pair_free s]: no high surrogate of [s] is immediately followed
    by a low surrogate. *)
Fixpoint surrogate_pair_free (s : str) : bool :=
  match s with
  | c :: ((c' :: _) as rest) =>
      negb (is_high_surrogate c && is_low_surrogate c') && surrogate_pair_free rest
  | _ => true
  end.

(** A Python string in which no high surrogate stands directly before a low
    surrogate. *)
Definition plain (d : list N) : Prop := is_str d ∧ surrogate_pair_free d = true.

(** [str.startswith]. *)
Definition startswith (prefix s : str) : bool := bool_decide (take (length prefix) s = prefix).

(** [str.isspace] on one code point (the characters [str.strip()] removes). *)
Definition isspace (c : N) : bool :=
  ((0x09 <=? c) && (c <=? 0x0D)) || ((0x1C <=? c) && (c <=? 0x20))
  || (c =? 0x85) || (c =? 0xA0) || (c =? 0x1680)
  || ((0x2000 <=? c) && (c <=? 0x200A))
  || (c =? 0x2028) || (c =? 0x2029) || (c =? 0x202F) || (c =? 0x205F) || (c =? 0x3000).

Fixpoint lstrip (s : str) : str :=
  match s with
  | c :: rest => if isspace c then lstrip rest else s
  | [] => []
  end.

(** [str.strip()]: whitespace removed at both ends. *)
Definition strip (s : str) : str := reverse (lstrip (reverse (lstrip s))).

Definition is_ascii (s : str) : bool := forallb (λ c, c <? 128) s.

Definition ascii_lower (c : N) : N := if (65 <=? c) && (c <=? 90) then c + 32 else c.

(** [str(n)] for an [int]: the decimal numeral, with a minus sign when
    negative. *)
Fixpoint uint_text (d : Decimal.uint) : str :=
  match d with
  | Decimal.Nil => []
  | Decimal.D0 d => 48 :: uint_text d
  | Decimal.D1 d => 49 :: uint_text d
  | Decimal.D2 d => 50 :: uint_text d
  | Decimal.D3 d => 51 :: uint_text d
  | Decimal.D4 d => 52 :: uint_text d
  | Decimal.D5 d => 53 :: uint_text d
  | Decimal.D6 d => 54 :: uint_text d
  | Decimal.D7 d => 55 :: uint_text d
  | Decimal.D8 d => 56 :: uint_text d
  | Decimal.D9 d => 57 :: uint_text d
  end.

Definition int_text (z : Z) : str :=
  match z with
  | Zneg p => 45 :: uint_text (Pos.to_uint p)
  | _ => uint_text (N.to_uint (Z.to_N z))
  end.

(** ** The json codec *)

(** Python values that [json.load] can return.  A float is kept as the text
    of its literal: no operation of the store computes with one. *)
Inductive value : Type :=
  | VNone
  | VBool (b : bool)
  | VInt (z : Z)
  | VFloat (literal : str)
  | VStr (s : str)
  | VList (items : list value)
  | VDict (items : list (list N * value)).

(** *** Encoding ([json.dump]) *)

Definition hex_digit (n : N) : N := if n <? 10 then 48 + n else 87 + n.

(** ['\\u{0:04x}'.format(n)] *)
Definition u_escape (n : N) : str :=
  [BACKSLASH; 117; hex_digit (n / 4096 mod 16); hex_digit (n / 256 mod 16);
   hex_digit (n / 16 mod 16); hex_digit (n mod 16)].

(** One character of a string, as [encode_basestring_ascii] writes it. *)
Definition encode_char (c : N) : str :=
  if c =? QUOTE then [BACKSLASH; QUOTE]
  else if c =? BACKSLASH then [BACKSLASH; BACKSLASH]
  else if c =? 10 then [BACKSLASH; 110]
  else if c =? 13 then [BACKSLASH; 114]
  else if c =? 9 then [BACKSLASH; 116]
  else if c =? 12 then [BACKSLASH; 102]
  else if c =? 8 then [BACKSLASH; 98]
  else if (32 <=? c) && (c <=? 126) then [c]
  else if c <? 0x10000 then u_escape c
  else
    let n := c - 0x10000 in
    u_escape (N.lor 0xD800 (N.land (N.shiftr n 10) 0x3FF))
      ++ u_escape (N.lor 0xDC00 (N.land n 0x3FF)).

Definition encode_chars (s : str) : str := s ≫= encode_char.

Definition encode_str (s : str) : str := QUOTE :: encode_chars s ++ [QUOTE].

Definition encode_bool (b : bool) : str := if b then u "true" else u "false".

(** The dicts of the task list, in the order [add_task] inserts the keys. *)
Definition encode_field (key value_text : str) : str :=
  encode_str key ++ u ": " ++ value_text.

(** [", ".join(chunks)] *)
Fixpoint join_comma (chunks : list (list N)) : str :=
  match chunks with
  | [] => []
  | [chunk] => chunk
  | chunk :: more => chunk ++ u ", " ++ join_comma more
  end.

(** *** Decoding ([json.load]) *)

(** Whitespace between tokens: space, tab, newline, carriage return. *)
Definition is_json_ws (c : N) : bool := (c =? 32) || (c =? 9) || (c =? 10) || (c =? 13).

Fixpoint skip_ws (s : str) : str :=
  match s with
  | c :: rest => if is_json_ws c then skip_ws rest else s
  | [] => []
  end.

Definition hex_value (c : N) : option N :=
  if (48 <=? c) && (c <=? 57) then Some (c - 48)
  else if (97 <=? c) && (c <=? 102) then Some (c - 87)
  else if (65 <=? c) && (c <=? 70) then Some (c - 55)
  else None.

(** Four hexadecimal digits. *)
Definition hex4 (h1 h2 h3 h4 : N) : option N :=
  a ← hex_value h1; b ← hex_value h2; c ← hex_value h3; d ← hex_value h4;
  Some (((a * 16 + b) * 16 + c) * 16 + d).

(** The character a one-letter escape stands for. *)
Definition unescape (e : N) : option N :=
  if e =? QUOTE then Some QUOTE
  else if e =? BACKSLASH then Some BACKSLASH
  else if e =? 47 then Some 47
  else if e =? 98 then Some 8
  else if e =? 102 then Some 12
  else if e =? 110 then Some 10
  else if e =? 114 then Some 13
  else if e =? 116 then Some 9
  else None.

Definition join_surrogates (hi lo : N) : N :=
  0x10000 + N.lor (N.shiftl (hi - 0xD800) 10) (lo - 0xDC00).

(** What follows a [\uXXXX] escape that gave a high surrogate. *)
Inductive lookahead : Type :=
  | LowSurrogate (lo : N)   (* a [\uXXXX] escape of a low surrogate: joined *)
  | BadEscape               (* [\u] and no four hexadecimal digits: an error *)
  | NoPair.                 (* anything else: the high surrogate stands alone *)

Definition low_escape (s : str) : lookahead :=
  match s with
  | b :: u' :: l1 :: l2 :: l3 :: l4 :: _ =>
      if (b =? BACKSLASH) && (u' =? 117) then
        match hex4 l1 l2 l3 l4 with
        | Some lo => if is_low_surrogate lo then LowSurrogate lo else NoPair
        | None => BadEscape
        end
      else NoPair
  | _ => NoPair
  end.

Definition cons_char (c : N) (r : option (list N * list N)) : option (list N * list N) :=
  '(t, rest) ← r; Some (c :: t, rest).

(** [scanstring] (strict): the text after an opening quote, up to the closing
    one.  Returns the string and the text after the closing quote; [None] is
    a [JSONDecodeError]. *)
Fixpoint scanstring (s : str) : option (list N * list N) :=
  match s with
  | [] => None
  | c :: s1 =>
    if c =? QUOTE then Some ([], s1)
    else if c =? BACKSLASH then
      match s1 with
      | [] => None
      | e :: s2 =>
        if e =? 117 then
          match s2 with
          | h1 :: h2 :: h3 :: h4 :: s3 =>
            match hex4 h1 h2 h3 h4 with
            | None => None
            | Some c1 =>
              match (if is_high_surrogate c1 then low_escape s3 else NoPair) with
              | BadEscape => None
              | LowSurrogate lo =>
                match s3 with
                | _ :: _ :: _ :: _ :: _ :: _ :: s4 =>
                    cons_char (join_surrogates c1 lo) (scanstring s4)
                | _ => None
                end
              | NoPair => cons_char c1 (scanstring s3)
              end
            end
          | _ => None
          end
        else
          match unescape e with
          | Some c1 => cons_char c1 (scanstring s2)
          | None => None
          end
      end
    else if c <=? 31 then None
    else cons_char c (scanstring s1)
  end.

Definition digit_of (c : N) : option (Decimal.uint → Decimal.uint) :=
  if c =? 48 then Some Decimal.D0 else if c =? 49 then Some Decimal.D1
  else if c =? 50 then Some Decimal.D2 else if c =? 51 then Some Decimal.D3
  else if c =? 52 then Some Decimal.D4 else if c =? 53 then Some Decimal.D5
  else if c =? 54 then Some Decimal.D6 else if c =? 55 then Some Decimal.D7
  else if c =? 56 then Some Decimal.D8 else if c =? 57 then Some Decimal.D9
  else None.

Definition is_digit (c : N) : bool := (48 <=? c) && (c <=? 57).

(** The longest run of decimal digits at the head of [s], and what follows. *)
Fixpoint scan_digits (s : str) : Decimal.uint * list N :=
  match s with
  | c :: rest =>
      match digit_of c with
      | Some d => let '(ds, r) := scan_digits rest in (d ds, r)
      | None => (Decimal.Nil, s)
      end
  | [] => (Decimal.Nil, [])
  end.

(** The fraction [.ddd] of a number, when present. *)
Definition scan_fraction (s : str) : option (list N * list N) :=
  match s with
  | dot :: d :: _ =>
      if (dot =? 46) && is_digit d then
        let '(ds, r) := scan_digits (drop 1 s) in Some (46 :: uint_text ds, r)
      else None
  | _ => None
  end.

(** The exponent [e+ddd] of a number, when present with at least one digit. *)
Definition scan_exponent (s : str) : option (list N * list N) :=
  match s with
  | e :: s1 =>
      if (e =? 101) || (e =? 69) then
        let '(sign, s2) :=
          match s1 with
          | c :: s2 => if (c =? 45) || (c =? 43) then ([c], s2) else ([], s1)
          | [] => ([], s1)
          end in
        let '(ds, r) := scan_digits s2 in
        match ds with
        | Decimal.Nil => None
        | _ => Some (e :: sign ++ uint_text ds, r)
        end
      else None
  | [] => None
  end.

(** [match_number]: an optional minus sign, then [0] or a run of digits that
    does not start with [0], then an optional fraction and an optional exponent.  An [int] when it has neither, a [float] otherwise. *)
Definition match_number (s : str) : option (value * list N) :=
  let '(negative, s1) :=
    match s with
    | c :: s1 => if c =? 45 then (true, s1) else (false, s)
    | [] => (false, s)
    end in
  match s1 with
  | c :: s2 =>
      let integer :=
        if (49 <=? c) && (c <=? 57) then Some (scan_digits s1)
        else if c =? 48 then Some (Decimal.D0 Decimal.Nil, s2)
        else None in
      '(ds, r) ← integer;
      let '(frac, r1) := default ([], r) (scan_fraction r) in
      let '(exp, r2) := default ([], r1) (scan_exponent r1) in
      match frac, exp with
      | [], [] =>
          let n := Z.of_N (N.of_uint ds) in
          Some (VInt (if negative then (- n)%Z else n), r2)
      | _, _ =>
          Some (VFloat ((if negative then [45] else []) ++ uint_text ds ++ frac ++ exp), r2)
      end
  | [] => None
  end.

(** [d[k] = v] on a dict kept as its list of items in insertion order. *)
Fixpoint dict_set (k : str) (v : value) (d : list (list N * value)) : list (list N * value) :=
  match d with
  | [] => [(k, v)]
  | (k', v') :: d' => if decide (k = k') then (k, v) :: d' else (k', v') :: dict_set k v d'
  end.

Definition dict_of_pairs (pairs : list (list N * value)) : list (list N * value) :=
  foldl (λ d kv, dict_set kv.1 kv.2 d) [] pairs.

(** The outcome of scanning a value whose scan needs a recursion budget. *)
Inductive scan (A : Type) : Type :=
  | Scanned (a : A) (rest : list N)
  | Malformed        (* [JSONDecodeError] *)
  | Exhausted.       (* the budget ran out; [scan_once_budget] shows it never does *)
Arguments Scanned {A} a rest.
Arguments Malformed {A}.
Arguments Exhausted {A}.

(** [scan_once]: one json value at the head of the text.  [array_items] and
    [object_items] are the loops of [JSONArray] and [JSONObject], entered
    after the opening bracket, the whitespace after it, and the check for an
    empty array or object. *)
Fixpoint scan_once (budget : nat) (s : str) : scan value :=
  match budget with
  | O => Exhausted
  | S budget =>
    match s with
    | [] => Malformed
    | c :: rest =>
      if c =? QUOTE then
        match scanstring rest with
        | Some (t, r) => Scanned (VStr t) r
        | None => Malformed
        end
      else if c =? 123 then
        match skip_ws rest with
        | c' :: r' =>
            if c' =? 125 then Scanned (VDict []) r'
            else
              match object_items budget (c' :: r') with
              | Scanned pairs r => Scanned (VDict (dict_of_pairs pairs)) r
              | Malformed => Malformed
              | Exhausted => Exhausted
              end
        | [] => Malformed
        end
      else if c =? 91 then
        match skip_ws rest with
        | c' :: r' =>
            if c' =? 93 then Scanned (VList []) r'
            else
              match array_items budget (c' :: r') with
              | Scanned items r => Scanned (VList items) r
              | Malformed => Malformed
              | Exhausted => Exhausted
              end
        | [] => Malformed
        end
      else if startswith (u "null") s then Scanned VNone (drop 4 s)
      else if startswith (u "true") s then Scanned (VBool true) (drop 4 s)
      else if startswith (u "false") s then Scanned (VBool false) (drop 5 s)
      else if startswith (u "NaN") s then Scanned (VFloat (u "NaN")) (drop 3 s)
      else if startswith (u "Infinity") s then Scanned (VFloat (u "Infinity")) (drop 8 s)
      else if startswith (u "-Infinity") s then Scanned (VFloat (u "-Infinity")) (drop 9 s)
      else
        match match_number s with
        | Some (v, r) => Scanned v r
        | None => Malformed
        end
    end
  end
with array_items (budget : nat) (s : str) : scan (list value) :=
  match budget with
  | O => Exhausted
  | S budget =>
    match scan_once budget s with
    | Scanned v r =>
      match skip_ws r with
      | c :: r' =>
          if c =? 93 then Scanned [v] r'
          else if c =? 44 then
            match array_items budget (skip_ws r') with
            | Scanned vs r'' => Scanned (v :: vs) r''
            | Malformed => Malformed
            | Exhausted => Exhausted
            end
          else Malformed
      | [] => Malformed
      end
    | Malformed => Malformed
    | Exhausted => Exhausted
    end
  end
with object_items (budget : nat) (s : str) : scan (list (list N * value)) :=
  match budget with
  | O => Exhausted
  | S budget =>
    match s with
    | q :: s1 =>
      if q =? QUOTE then
        match scanstring s1 with
        | Some (key, r) =>
          match skip_ws r with
          | colon :: r1 =>
            if colon =? 58 then
              match scan_once budget (skip_ws r1) with
              | Scanned v r2 =>
                match skip_ws r2 with
                | c :: r3 =>
                    if c =? 125 then Scanned [(key, v)] r3
                    else if c =? 44 then
                      match object_items budget (skip_ws r3) with
                      | Scanned kvs r4 => Scanned ((key, v) :: kvs) r4
                      | Malformed => Malformed
                      | Exhausted => Exhausted
                      end
                    else Malformed
                | [] => Malformed
                end
              | Malformed => Malformed
              | Exhausted => Exhausted
              end
            else Malformed
          | [] => Malformed
          end
        | None => Malformed
        end
      else Malformed
    | [] => Malformed
    end
  end.

(** The budget [json_loads] gives the scanner for a text. *)
Definition budget_for (s : str) : nat := S (2 * length s).

(** [json.loads(s)] where the recursion limit is not met: [None] is a
    [JSONDecodeError].  [Fallible.json_loads] has the limit. *)
Definition json_loads (s : str) : option value :=
  if startswith [0xFEFF] s then None
  else
    let s' := skip_ws s in
    match scan_once (budget_for s') s' with
    | Scanned v rest => if bool_decide (skip_ws rest = []) then Some v else None
    | _ => None
    end.

(** ** Tasks *)

(** One task: the dict [{'id': ..., 'description': ..., 'completed': ...}]. *)
Record Task : Type := mkTask { id : Z; description : list N; completed : bool }.

(** [==] on two task dicts compares the three items. *)
Global Instance Task_eq_dec : EqDecision Task.
Proof. solve_decision. Defined.

(** [task['completed'] = True] *)
Definition set_completed (task : Task) : Task :=
  {| id := id task; description := description task; completed := true |}.

(** [json.dumps(task)] for one task dict. *)
Definition encode_task (task : Task) : str :=
  u "{"
    ++ join_comma [encode_field (u "id") (int_text (id task));
                   encode_field (u "description") (encode_str (description task));
                   encode_field (u "completed") (encode_bool (completed task))]
    ++ u "}".

(** [json.dumps(tasks)] for the task list. *)
Definition json_dumps (tasks : list Task) : str :=
  u "[" ++ join_comma (encode_task <$> tasks) ++ u "]".

(** The Python value of a task, and of the task list. *)
Definition value_of_task (task : Task) : value :=
  VDict [(u "id", VInt (id task));
         (u "description", VStr (description task));
         (u "completed", VBool (completed task))].

Definition value_of_tasks (tasks : list Task) : value := VList (value_of_task <$> tasks).

(** The values [json.load] returns are typed back into the data model:
    a list of dicts with the three keys, in the order [save_tasks] writes
    them, an [int], a [str] and a [bool].  Any other value is outside the
    data model ([None]). *)
Definition task_of_value (v : value) : option Task :=
  match v with
  | VDict [(k1, VInt i); (k2, VStr d); (k3, VBool c)] =>
      if decide (k1 = u "id" ∧ k2 = u "description" ∧ k3 = u "completed")
      then Some {| id := i; description := d; completed := c |}
      else None
  | _ => None
  end.

Definition tasks_of_value (v : value) : option (list Task) :=
  match v with
  | VList items => mapM task_of_value items
  | _ => None
  end.

(** ** The task store ([class TodoApp]) *)

(** The file system: the text of every file that exists, by path. *)
Abbreviation FS := (gmap (list N) (list N)).

Record TodoApp : Type := mkTodoApp { filename : list N; tasks : list Task }.

Definition with_tasks (self : TodoApp) (tasks' : list Task) : TodoApp :=
  {| filename := filename self; tasks := tasks' |}.

(** [load_tasks] where reading the file does not fail: the value
    [json.load] gives for the file, [[]] when the file does not exist or
    [json.load] raises [JSONDecodeError].  [Fallible.load_tasks] has the
    exceptions that [load_tasks] does not catch. *)
Definition load_tasks (filename : str) (fs : FS) : value :=
  match fs !! filename with
  | Some content =>
      match json_loads content with
      | Some v => v
      | None => VList []
      end
  | None => VList []
  end.

(** [TodoApp(filename)]: [None] when the loaded value is outside the data
    model. *)
Definition __init__ (filename : str) (fs : FS) : option TodoApp :=
  tasks ← tasks_of_value (load_tasks filename fs);
  Some {| filename := filename; tasks := tasks |}.

(** [save_tasks] where the file can be opened for writing: the file is
    overwritten with the encoded list.  [Fallible.save_tasks] has the
    failing [open]. *)
Definition save_tasks (self : TodoApp) (fs : FS) : FS :=
  <[filename self := json_dumps (tasks self)]> fs.

Definition add_task (description : str) (self : TodoApp) (fs : FS) : TodoApp * FS :=
  let task := {| id := Z.of_nat (length (tasks self)) + 1;
                 description := description;
                 completed := false |} in
  let self := with_tasks self (tasks self ++ [task]) in
  (self, save_tasks self fs).

Definition list_tasks (self : TodoApp) : list Task := tasks self.

(** The [for task in self.tasks: if task['id'] == task_id: ...; return True]
    loop: the first task with the id, and its index. *)
Definition first_with_id (task_id : Z) (tasks : list Task) : option (nat * Task) :=
  list_find (λ task, id task = task_id) tasks.

Definition mark_complete (task_id : Z) (self : TodoApp) (fs : FS) : bool * TodoApp * FS :=
  match first_with_id task_id (tasks self) with
  | Some (i, task) =>
      let self := with_tasks self (<[i := set_completed task]> (tasks self)) in
      (true, self, save_tasks self fs)
  | None => (false, self, fs)
  end.

(** [list.remove(x)]: the first item equal to [x] is removed; [None] is the
    [ValueError] raised when there is none. *)
Fixpoint remove (x : Task) (l : list Task) : option (list Task) :=
  match l with
  | [] => None
  | y :: l' => if decide (y = x) then Some l' else cons y <$> remove x l'
  end.

(** [delete_task]: [None] is the [ValueError] of [list.remove], which
    [delete_task] does not catch. *)
Definition delete_task (task_id : Z) (self : TodoApp) (fs : FS) : option (bool * TodoApp * FS) :=
  match first_with_id task_id (tasks self) with
  | Some (_, task) =>
      tasks' ← remove task (tasks self);
      let self := with_tasks self tasks' in
      Some (true, self, save_tasks self fs)
  | None => Some (false, self, fs)
  end.

Definition clear_completed (self : TodoApp) (fs : FS) : TodoApp * FS :=
  let self := with_tasks self (filter (λ task, completed task = false) (tasks self)) in
  (self, save_tasks self fs).

Record Stats : Type := mkStats { total : nat; completed_count : nat }.

Definition get_stats (self : TodoApp) : Stats :=
  {| total := length (tasks self);
     completed_count := length (filter (λ task, completed task = true) (tasks self)) |}.

(** The four mutators as one type, for statements about every operation. *)
Inductive operation : Type :=
  | AddTask (description : list N)
  | MarkComplete (task_id : Z)
  | DeleteTask (task_id : Z)
  | ClearCompleted.

(** The state after an operation; [None] when it raises. *)
Definition run_operation (o : operation) (self : TodoApp) (fs : FS) : option (TodoApp * FS) :=
  match o with
  | AddTask description => Some (add_task description self fs)
  | MarkComplete task_id => let '(_, self, fs) := mark_complete task_id self fs in Some (self, fs)
  | DeleteTask task_id => '(_, self, fs) ← delete_task task_id self fs; Some (self, fs)
  | ClearCompleted => Some (clear_completed self fs)
  end.

(** Where the dict at slot [i] of the list is after an operation; [None]
    when the operation takes it out of the list.  [add_task] appends and
    [mark_complete] assigns in place, so the slot is kept; [delete_task]
    shifts the slots after the removed one; [clear_completed] keeps the
    dicts that are not completed, in order. *)
Definition slot_after (o : operation) (tasks : list Task) (i : nat) : option nat :=
  match o with
  | AddTask _ | MarkComplete _ => Some i
  | DeleteTask task_id =>
      match first_with_id task_id tasks with
      | Some (k, _) => if decide (i < k)%nat then Some i else if decide (i = k) then None else Some (pred i)
      | None => Some i
      end
  | ClearCompleted =>
      match tasks !! i with
      | Some task =>
          if completed task then None
          else Some (length (filter (λ task, completed task = false) (take i tasks)))
      | None => None
      end
  end.

(** A sequence of operations, each run on the state the one before left;
    [None] when one of them raises. *)
Fixpoint run_operations (os : list operation) (self : TodoApp) (fs : FS) : option (TodoApp * FS) :=
  match os with
  | [] => Some (self, fs)
  | o :: os => '(self, fs) ← run_operation o self fs; run_operations os self fs
  end.

(** The operations that take no task out of the list. *)
Definition adds_or_completes (o : operation) : Prop :=
  match o with
  | AddTask _ | MarkComplete _ => True
  | DeleteTask _ | ClearCompleted => False
  end.

(** The ids of a list are the positions of its tasks, counted from 1 (as in
    a store that only ever added tasks). *)
Definition positional (l : list Task) : Prop :=
  ∀ i task, l !! i = Some task → id task = (Z.of_nat i + 1)%Z.

(** The file of the store holds the encoded list, or opening a store on it
    gives this store. *)
Definition in_sync (self : TodoApp) (fs : FS) : Prop :=
  fs !! filename self = Some (json_dumps (tasks self))
  ∨ __init__ (filename self) fs = Some self.

(** ** The command interpreter ([main]) *)

(** [Py_ISSPACE]: the whitespace [int()] skips around an ASCII numeral. *)
Definition is_c_space (c : N) : bool := ((9 <=? c) && (c <=? 13)) || (c =? 32).

(** The digits of an ASCII numeral after its first digit: digits, each
    optionally preceded by one underscore, then whitespace up to the end. *)
Fixpoint int_tail (s : str) : option Decimal.uint :=
  match s with
  | [] => Some Decimal.Nil
  | c :: rest =>
      if c =? 95 then
        match rest with
        | d :: rest' =>
            match digit_of d with
            | Some k => k <$> int_tail rest'
            | None => None
            end
        | [] => None
        end
      else
        match digit_of c with
        | Some k => k <$> int_tail rest
        | None => if forallb is_c_space s then Some Decimal.Nil else None
        end
  end.

Fixpoint skip_c_space (s : str) : str :=
  match s with
  | c :: rest => if is_c_space c then skip_c_space rest else s
  | [] => []
  end.

(** [int(s)] for ASCII text; [None] is a [ValueError]. *)
Definition int_ascii (s : str) : option Z :=
  let s := skip_c_space s in
  let '(negative, s) :=
    match s with
    | c :: rest => if c =? 45 then (true, rest) else if c =? 43 then (false, rest) else (false, s)
    | [] => (false, s)
    end in
  match s with
  | c :: rest =>
      k ← digit_of c;
      ds ← int_tail rest;
      let n := Z.of_N (N.of_uint (k ds)) in
      Some (if negative then (- n)%Z else n)
  | [] => None
  end.

Definition NEWLINE : N := 10.

Definition prompt : str := NEWLINE :: u "Enter command (h for help): ".

Definition help_text : str :=
  NEWLINE :: u "Commands:" ++
  NEWLINE :: u "  a <description> - Add new task" ++
  NEWLINE :: u "  l              - List all tasks" ++
  NEWLINE :: u "  c <id>         - Mark task as complete" ++
  NEWLINE :: u "  d <id>         - Delete task" ++
  NEWLINE :: u "  x              - Clear completed tasks" ++
  NEWLINE :: u "  s              - Show task statistics" ++
  NEWLINE :: u "  h              - Show this help" ++
  NEWLINE :: u "  q              - Quit" ++ [NEWLINE].

(** The line printed for one task by the [l] command. *)
Definition task_line (task : Task) : str :=
  u "[" ++ (if completed task then [0x2713] else u " ") ++ u "] "
    ++ int_text (id task) ++ u ": " ++ description task.

(** How [main] ends. *)
Inductive ending : Type := Returned | RaisedEOFError.

Section Interpreter.

(** [str.lower] and [int] on text that is not ASCII follow the Unicode
    character database, which is not part of the program: both are
    parameters of the interpreter.  On ASCII text they are defined
    here. *)
Variable unicode_lower : list N → list N.
Variable unicode_int : list N → option Z.

Definition lower (s : str) : str :=
  if is_ascii s then ascii_lower <$> s else unicode_lower s.

(** [int(s)]; [None] is a [ValueError]. *)
Definition py_int (s : str) : option Z :=
  if is_ascii s then int_ascii s else unicode_int s.

(** One turn of the [while True] loop after [input()] returned [line],
    where no write to the file or to standard output fails: whether the
    loop goes on, the strings printed, and the new state.
    [Fallible.turn] has the failures. *)
Definition turn (line : str) (app : TodoApp) (fs : FS) : bool * list (list N) * TodoApp * FS :=
  let command := lower (strip line) in
  if decide (command = u "h") then (true, [help_text], app, fs)
  else if startswith (u "a ") command then
    let '(app, fs) := add_task (drop 2 command) app fs in
    (true, [u "Task added"], app, fs)
  else if decide (command = u "l") then
    let tasks := list_tasks app in
    (true, (if decide (tasks = []) then [u "No tasks"] else []) ++ (task_line <$> tasks), app, fs)
  else if startswith (u "c ") command then
    match py_int (drop 2 command) with
    | Some task_id =>
        let '(found, app, fs) := mark_complete task_id app fs in
        (true, [if found then u "Task marked as complete" else u "Task not found"], app, fs)
    | None => (true, [u "Invalid task ID"], app, fs)
    end
  else if startswith (u "d ") command then
    match py_int (drop 2 command) with
    | Some task_id =>
        match delete_task task_id app fs with
        | Some (found, app, fs) =>
            (true, [if found then u "Task deleted" else u "Task not found"], app, fs)
        | None => (true, [u "Invalid task ID"], app, fs)
        end
    | None => (true, [u "Invalid task ID"], app, fs)
    end
  else if decide (command = u "x") then
    let '(app, fs) := clear_completed app fs in
    (true, [u "Completed tasks cleared"], app, fs)
  else if decide (command = u "s") then
    let stats := get_stats app in
    (true, [u "Total tasks: " ++ int_text (Z.of_nat (total stats));
            u "Completed tasks: " ++ int_text (Z.of_nat (completed_count stats))], app, fs)
  else if decide (command = u "q") then (false, [], app, fs)
  else (true, [u "Invalid command. Type h for help."], app, fs).

(** The loop over the lines typed on standard input: it returns on [q],
    and [input()] raises [EOFError] when the lines run out. *)
Fixpoint loop (lines : list (list N)) (app : TodoApp) (fs : FS)
    : ending * list (list N) * TodoApp * FS :=
  match lines with
  | [] => (RaisedEOFError, [prompt], app, fs)
  | line :: lines =>
      let '(again, printed, app, fs) := turn line app fs in
      if again then
        let '(e, printed', app, fs) := loop lines app fs in
        (e, prompt :: printed ++ printed', app, fs)
      else (Returned, prompt :: printed, app, fs)
  end.

(** [main()]: the store is opened on [tasks.json]. *)
Definition main (lines : list (list N)) (fs : FS)
    : option (ending * list (list N) * TodoApp * FS) :=
  app ← __init__ (u "tasks.json") fs;
  Some (loop lines app fs).

End Interpreter.

(** ** The program in an environment that can fail *)

(** The definitions above describe the program where no call into its
    environment fails.  This module describes the same code where such a
    call can raise: [json.load] on text that nests deeper than the
    interpreter has room for, opening or reading the file, opening it for
    writing, and writing to standard output.  An exception that the code
    does not catch ends the call, and [main] with it. *)
Module Fallible.

(** The exception classes that occur.  [JSONDecodeError],
    [UnicodeDecodeError] and [UnicodeEncodeError] are subclasses of
    [ValueError]. *)
Inductive exception : Type :=
  | EOFError
  | OSError
  | RecursionError
  | ValueError
  | JSONDecodeError
  | UnicodeDecodeError
  | UnicodeEncodeError.

Global Instance exception_eq_dec : EqDecision exception.
Proof. solve_decision. Defined.

(** [isinstance(e, ValueError)]: what [except ValueError] catches. *)
Definition is_ValueError (e : exception) : bool :=
  match e with
  | ValueError | JSONDecodeError | UnicodeDecodeError | UnicodeEncodeError => true
  | EOFError | OSError | RecursionError => false
  end.

(** [isinstance(e, json.JSONDecodeError)]: what [load_tasks] catches. *)
Definition is_JSONDecodeError (e : exception) : bool :=
  match e with
  | JSONDecodeError => true
  | _ => false
  end.

(** The outcome of a call. *)
Inductive result (A : Type) : Type :=
  | Returns (a : A)
  | Raises (e : exception).
Arguments Returns {A} a.
Arguments Raises {A} e.

(** What the environment does during one run.
    - [recursion_room]: how many json arrays and objects, one inside the
      other, the scanner can enter before the interpreter raises
      [RecursionError] (what is left of the recursion limit where
      [json.load] is called).
    - [read_error path]: the exception that opening the existing file
      [path] for reading, or reading and decoding it, raises ([OSError],
      [UnicodeDecodeError]); [None] when [read()] returns the text that
      the file system holds for [path].
    - [write_error path]: the exception that [open(path, 'w')] raises;
      [None] when the file is opened and written.
    - [stdout_error text]: the exception that writing [text] to
      [sys.stdout] raises ([UnicodeEncodeError] when its encoding has no
      code for a character of [text]); [None] when [text] is written.
    The answers do not change while the program runs. *)
Record Env : Type := mkEnv {
  recursion_room : nat;
  read_error : list N → option exception;
  write_error : list N → option exception;
  stdout_error : list N → option exception
}.

(** *** json.load with the recursion check *)

(** The scanner enters an array or an object through
    [Py_EnterRecursiveCall], which raises [RecursionError] when no room is
    left; the items are scanned with one level less.  Every other value is
    scanned as [scan_once] does. *)
Fixpoint scan_once_within (room budget : nat) (s : str) {struct budget} : result (scan value) :=
  match budget with
  | O => Returns Exhausted
  | S budget' =>
    match s with
    | [] => Returns Malformed
    | c :: rest =>
      if c =? 123 then
        match room with
        | O => Raises RecursionError
        | S room' =>
          match skip_ws rest with
          | c' :: r' =>
              if c' =? 125 then Returns (Scanned (VDict []) r')
              else
                match object_items_within room' budget' (c' :: r') with
                | Returns (Scanned pairs r) => Returns (Scanned (VDict (dict_of_pairs pairs)) r)
                | Returns Malformed => Returns Malformed
                | Returns Exhausted => Returns Exhausted
                | Raises e => Raises e
                end
          | [] => Returns Malformed
          end
        end
      else if c =? 91 then
        match room with
        | O => Raises RecursionError
        | S room' =>
          match skip_ws rest with
          | c' :: r' =>
              if c' =? 93 then Returns (Scanned (VList []) r')
              else
                match array_items_within room' budget' (c' :: r') with
                | Returns (Scanned items r) => Returns (Scanned (VList items) r)
                | Returns Malformed => Returns Malformed
                | Returns Exhausted => Returns Exhausted
                | Raises e => Raises e
                end
          | [] => Returns Malformed
          end
        end
      else Returns (scan_once budget s)
    end
  end
with array_items_within (room budget : nat) (s : str) {struct budget} : result (scan (list value)) :=
  match budget with
  | O => Returns Exhausted
  | S budget' =>
    match scan_once_within room budget' s with
    | Returns (Scanned v r) =>
      match skip_ws r with
      | c :: r' =>
          if c =? 93 then Returns (Scanned [v] r')
          else if c =? 44 then
            match array_items_within room budget' (skip_ws r') with
            | Returns (Scanned vs r'') => Returns (Scanned (v :: vs) r'')
            | other => other
            end
          else Returns Malformed
      | [] => Returns Malformed
      end
    | Returns Malformed => Returns Malformed
    | Returns Exhausted => Returns Exhausted
    | Raises e => Raises e
    end
  end
with object_items_within (room budget : nat) (s : str) {struct budget}
    : result (scan (list (list N * value))) :=
  match budget with
  | O => Returns Exhausted
  | S budget' =>
    match s with
    | q :: s1 =>
      if q =? QUOTE then
        match scanstring s1 with
        | Some (key, r) =>
          match skip_ws r with
          | colon :: r1 =>
            if colon =? 58 then
              match scan_once_within room budget' (skip_ws r1) with
              | Returns (Scanned v r2) =>
                match skip_ws r2 with
                | c :: r3 =>
                    if c =? 125 then Returns (Scanned [(key, v)] r3)
                    else if c =? 44 then
                      match object_items_within room budget' (skip_ws r3) with
                      | Returns (Scanned kvs r4) => Returns (Scanned ((key, v) :: kvs) r4)
                      | other => other
                      end
                    else Returns Malformed
                | [] => Returns Malformed
                end
              | Returns Malformed => Returns Malformed
              | Returns Exhausted => Returns Exhausted
              | Raises e => Raises e
              end
            else Returns Malformed
          | [] => Returns Malformed
          end
        | None => Returns Malformed
        end
      else Returns Malformed
    | [] => Returns Malformed
    end
  end.

(** [json.loads(s)] where the scanner has [room] levels. *)
Definition json_loads (room : nat) (s : str) : result value :=
  if startswith [0xFEFF] s then Raises JSONDecodeError
  else
    let s' := skip_ws s in
    match scan_once_within room (budget_for s') s' with
    | Returns (Scanned v rest) =>
        if bool_decide (skip_ws rest = []) then Returns v else Raises JSONDecodeError
    | Returns _ => Raises JSONDecodeError
    | Raises e => Raises e
    end.

(** *** Calls that change the state *)

(** The state of a run: the texts written to standard output so far, the
    store, and the file system. *)
Definition state : Type := list (list N) * TodoApp * FS.

(** A call: the state after it, and what it returns or raises. *)
Definition M (A : Type) : Type := state → state * result A.

Global Instance M_ret : MRet M := λ A a s, (s, Returns a).

Global Instance M_bind : MBind M := λ A B f m s,
  match m s with
  | (s', Returns a) => f a s'
  | (s', Raises e) => (s', Raises e)
  end.

Definition raise {A : Type} (e : exception) : M A := λ s, (s, Raises e).

(** [try: body  except <class>: handler] *)
Definition try_except {A : Type} (body : M A) (catches : exception → bool) (handler : M A) : M A :=
  λ s, match body s with
       | (s', Raises e) => if catches e then handler s' else (s', Raises e)
       | (s', Returns a) => (s', Returns a)
       end.

Section Program.

Variable env : Env.
Variable unicode_lower : list N → list N.
Variable unicode_int : list N → option Z.

(** [self.tasks], read and assigned. *)
Definition get_tasks : M (list Task) :=
  λ '(out, self, fs), ((out, self, fs), Returns (tasks self)).

Definition set_tasks (l : list Task) : M unit :=
  λ '(out, self, fs), ((out, with_tasks self l, fs), Returns tt).

Definition save_tasks : M unit :=
  λ '(out, self, fs),
    match write_error env (filename self) with
    | None => ((out, self, <[filename self := json_dumps (tasks self)]> fs), Returns tt)
    | Some e => ((out, self, fs), Raises e)
    end.

Definition add_task (description : str) : M unit :=
  l ← get_tasks;
  set_tasks (l ++ [ {| id := Z.of_nat (length l) + 1;
                       description := description;
                       completed := false |} ]);;
  save_tasks.

Definition mark_complete (task_id : Z) : M bool :=
  l ← get_tasks;
  match first_with_id task_id l with
  | Some (i, task) => set_tasks (<[i := set_completed task]> l);; save_tasks;; mret true
  | None => mret false
  end.

Definition delete_task (task_id : Z) : M bool :=
  l ← get_tasks;
  match first_with_id task_id l with
  | Some (_, task) =>
      match remove task l with
      | Some l' => set_tasks l';; save_tasks;; mret true
      | None => raise ValueError
      end
  | None => mret false
  end.

Definition clear_completed : M unit :=
  l ← get_tasks;
  set_tasks (filter (λ task, completed task = false) l);;
  save_tasks.

Definition list_tasks : M (list Task) := get_tasks.

Definition get_stats : M Stats :=
  λ '(out, self, fs), ((out, self, fs), Returns (get_stats self)).

(** One of the four operations. *)
Definition run_operation (o : operation) : M unit :=
  match o with
  | AddTask description => add_task description
  | MarkComplete task_id => mark_complete task_id;; mret tt
  | DeleteTask task_id => delete_task task_id;; mret tt
  | ClearCompleted => clear_completed
  end.

(** [print(text)], and the write of the prompt by [input]. *)
Definition print (text : str) : M unit :=
  λ '(out, self, fs),
    match stdout_error env text with
    | None => ((out ++ [text], self, fs), Returns tt)
    | Some e => ((out, self, fs), Raises e)
    end.

Fixpoint print_each (texts : list (list N)) : M unit :=
  match texts with
  | [] => mret tt
  | text :: texts => print text;; print_each texts
  end.

(** [int(s)] *)
Definition int (s : str) : M Z :=
  match py_int unicode_int s with
  | Some z => mret z
  | None => raise ValueError
  end.

(** One turn of the loop after [input()] returned [line]; [false] is
    [break].  The [try] blocks of the [c] and [d] commands enclose the
    operation and the print after it. *)
Definition turn (line : str) : M bool :=
  let command := lower unicode_lower (strip line) in
  if decide (command = u "h") then print help_text;; mret true
  else if startswith (u "a ") command then
    add_task (drop 2 command);;
    print (u "Task added");;
    mret true
  else if decide (command = u "l") then
    l ← list_tasks;
    (if decide (l = []) then print (u "No tasks") else mret tt);;
    print_each (task_line <$> l);;
    mret true
  else if startswith (u "c ") command then
    try_except
      (task_id ← int (drop 2 command);
       found ← mark_complete task_id;
       if (found : bool) then print (u "Task marked as complete") else print (u "Task not found"))
      is_ValueError
      (print (u "Invalid task ID"));;
    mret true
  else if startswith (u "d ") command then
    try_except
      (task_id ← int (drop 2 command);
       found ← delete_task task_id;
       if (found : bool) then print (u "Task deleted") else print (u "Task not found"))
      is_ValueError
      (print (u "Invalid task ID"));;
    mret true
  else if decide (command = u "x") then
    clear_completed;;
    print (u "Completed tasks cleared");;
    mret true
  else if decide (command = u "s") then
    stats ← get_stats;
    print (u "Total tasks: " ++ int_text (Z.of_nat (total stats)));;
    print (u "Completed tasks: " ++ int_text (Z.of_nat (completed_count stats)));;
    mret true
  else if decide (command = u "q") then mret false
  else print (u "Invalid command. Type h for help.");; mret true.

(** The [while True] loop: [input] writes the prompt and returns the next
    line, or raises [EOFError] when there is none. *)
Fixpoint loop (lines : list (list N)) : M unit :=
  match lines with
  | [] => print prompt;; raise EOFError
  | line :: lines =>
      print prompt;;
      again ← turn line;
      if (again : bool) then loop lines else mret tt
  end.

(** [load_tasks]: the [try] block encloses [open] and [json.load]; only
    [JSONDecodeError] is caught. *)
Definition load_tasks (filename : str) (fs : FS) : result value :=
  match fs !! filename with
  | Some content =>
      let body :=
        match read_error env filename with
        | Some e => Raises e
        | None => json_loads (recursion_room env) content
        end in
      match body with
      | Returns v => Returns v
      | Raises e => if is_JSONDecodeError e then Returns (VList []) else Raises e
      end
  | None => Returns (VList [])
  end.

(** [TodoApp(filename)]; [Returns None] when the loaded value is outside
    the data model. *)
Definition __init__ (filename : str) (fs : FS) : result (option TodoApp) :=
  match load_tasks filename fs with
  | Returns v =>
      Returns (l ← tasks_of_value v; Some {| filename := filename; tasks := l |})
  | Raises e => Raises e
  end.

(** [main()]: what was written to standard output, the file system at the
    end, and how [main] ended; [None] when the loaded value is outside the
    data model. *)
Definition main (lines : list (list N)) (fs : FS) : option (list (list N) * FS * result unit) :=
  match __init__ (u "tasks.json") fs with
  | Returns (Some app) =>
      let '(out, _, fs', r) := loop lines ([], app, fs) in
      Some (out, fs', r)
  | Returns None => None
  | Raises e => Some ([], fs, Raises e)
  end.

End Program.

End Fallible.

(** A line on which the loop stops: its command is [q]. *)
Definition quits (unicode_lower : list N → list N) (line : list N) : Prop :=
  lower unicode_lower (strip line) = u "q".

Global Instance quits_dec (unicode_lower : list N → list N) (line : list N) :
  Decision (quits unicode_lower line).
Proof. unfold quits. apply _. Defined.

(** A printable ASCII character. *)
Definition printable (c : N) : Prop := 32 ≤ c ∧ c ≤ 126.


(** An ending of the program as its environment sees it. *)
Definition ending_result (e : ending) : Fallible.result unit :=
  match e with
  | Returned => Fallible.Returns tt
  | RaisedEOFError => Fallible.Raises Fallible.EOFError
  end.

(** An exception that the environment raised: opening the file [name] for
    writing, or writing some text to standard output. *)
Definition raised_by (env : Fallible.Env) (name : list N) (e : Fallible.exception) : Prop :=
  Fallible.write_error env name = Some e ∨ ∃ text, Fallible.stdout_error env text = Some e.

(** ** Auxiliary definitions for the proofs *)

(** [m] keeps the path of the store, returns only values in [R] and raises
    only exceptions in [Q] (which may depend on the path of the store). *)
Definition behaves {A : Type} (R : A → Prop) (Q : list N → Fallible.exception → Prop)
    (m : Fallible.M A) : Prop :=
  ∀ s, filename (m s).1.1.2 = filename s.1.2
       ∧ match (m s).2 with
         | Fallible.Returns a => R a
         | Fallible.Raises e => Q (filename s.1.2) e
         end.


(** The shapes [encode_char] gives, as [scanstring] reads them back. *)
Inductive encoded (c : N) : list N → Prop :=
  | EncodedEscape e :
      e ≠ 117 → unescape e = Some c → encoded c [BACKSLASH; e]
  | EncodedPlain :
      c ≠ QUOTE → c ≠ BACKSLASH → 32 ≤ c → encoded c [c]
  | EncodedHex h1 h2 h3 h4 :
      hex4 h1 h2 h3 h4 = Some c → c < 0x10000 →
      encoded c [BACKSLASH; 117; h1; h2; h3; h4]
  | EncodedPair h1 h2 h3 h4 l1 l2 l3 l4 hi lo :
      hex4 h1 h2 h3 h4 = Some hi → hex4 l1 l2 l3 l4 = Some lo →
      is_high_surrogate hi = true → is_low_surrogate lo = true →
      join_surrogates hi lo = c →
      encoded c [BACKSLASH; 117; h1; h2; h3; h4; BACKSLASH; 117; l1; l2; l3; l4].

(** Boolean tests on code points, as propositions for [lia]. *)
Ltac bool_to_Prop :=
  repeat match goal with
  | H : (_ && _) = true |- _ => apply andb_true_iff in H as [??]
  | H : (_ && _) = false |- _ => apply andb_false_iff in H as [?|?]
  | H : (_ || _) = true |- _ => apply orb_true_iff in H as [?|?]
  | H : (_ || _) = false |- _ => apply orb_false_iff in H as [??]
  | H : negb _ = true |- _ => apply negb_true_iff in H
  | H : negb _ = false |- _ => apply negb_false_iff in H
  | H : (_ =? _)%N = true |- _ => apply N.eqb_eq in H
  | H : (_ =? _)%N = false |- _ => apply N.eqb_neq in H
  | H : (_ <=? _)%N = true |- _ => apply N.leb_le in H
  | H : (_ <=? _)%N = false |- _ => apply N.leb_gt in H
  | H : (_ <? _)%N = true |- _ => apply N.ltb_lt in H
  | H : (_ <? _)%N = false |- _ => apply N.ltb_ge in H
  end.

(* ===================================================================== *)
(** * Part II: properties                                                 *)
(* ===================================================================== *)

Local Close Scope N_scope.

(** ** The json codec *)

Section JsonFacts.

(** *** The scanner consumes text and never runs out of budget *)

Lemma cons_char_Some c o t r :
  cons_char c o = Some (t, r) ↔ ∃ t', o = Some (t', r) ∧ t = c :: t'.
Proof.
  unfold cons_char. destruct o as [[t' r']|]; simpl.
  - split; [intros [= <- <-]; eauto | intros (? & [= <- <-] & ->); done].
  - split; [done | by intros (? & ? & _)].
Qed.

Lemma skip_ws_length s : length (skip_ws s) ≤ length s.
Proof. induction s as [|c s IH]; simpl; [done|]. destruct (is_json_ws c); simpl; lia. Qed.

Lemma scanstring_shorter s t r : scanstring s = Some (t, r) → length r < length s.
Proof.
  remember (length s) as n eqn:Hn. revert s t r Hn.
  induction (lt_wf n) as [n _ IH]. intros s t r -> H.
  assert (∀ s' t' , length s' < length s → scanstring s' = Some (t', r) → length r < length s) as IH'.
  { intros s' t' Hlt Hs'. pose proof (IH _ Hlt s' t' r eq_refl Hs'). lia. }
  clear IH.
  destruct s as [|c s1]; [discriminate|]. simpl in H.
  repeat (case_match; simplify_eq/=; try lia);
    try (apply cons_char_Some in H as (t' & H & ->); eapply IH'; [|exact H]; simpl; lia).
Qed.

Lemma scan_digits_length s : length (scan_digits s).2 ≤ length s.
Proof.
  induction s as [|c s IH]; simpl; [done|].
  destruct (digit_of c); [|simpl; lia].
  destruct (scan_digits s); simpl in *; lia.
Qed.

Lemma scan_fraction_length s t r : scan_fraction s = Some (t, r) → length r ≤ length s.
Proof.
  unfold scan_fraction. destruct s as [|dot [|d s']]; try done.
  destruct (_ && _); [|done].
  change (drop 1 (dot :: d :: s')) with (d :: s').
  pose proof (scan_digits_length (d :: s')) as L.
  destruct (scan_digits (d :: s')) as [ds r']. intros [= <- <-]. simpl in *. lia.
Qed.

Lemma scan_exponent_length s t r : scan_exponent s = Some (t, r) → length r ≤ length s.
Proof.
  unfold scan_exponent. destruct s as [|e s1]; [done|].
  destruct (_ || _); [|done].
  set (p := match s1 with [] => _ | _ => _ end).
  assert (length p.2 ≤ length s1) as Hp.
  { subst p. destruct s1 as [|c s2]; simpl; [done|]. destruct (_ || _); simpl; lia. }
  destruct p as [sign s2]. simpl in Hp.
  pose proof (scan_digits_length s2) as L.
  destruct (scan_digits s2) as [ds r']. simpl in L.
  destruct ds; intros [= <- <-]; simpl; lia.
Qed.

Lemma match_number_shorter s v r : match_number s = Some (v, r) → length r < length s.
Proof.
  unfold match_number.
  set (p := match s with [] => _ | _ => _ end).
  assert (length p.2 ≤ length s) as Hp.
  { subst p. destruct s as [|c s1]; simpl; [done|]. destruct (c =? 45)%N; simpl; lia. }
  destruct p as [negative s1]. simpl in Hp.
  destruct s1 as [|c s2]; [done|].
  set (integer := if ((49 <=? c)%N && _) then _ else _).
  assert (∀ ds r0, integer = Some (ds, r0) → length r0 ≤ length s2) as Hint.
  { subst integer. intros ds r0. destruct (_ && _) eqn:E1.
    - intros [= E]. simpl in E. destruct (digit_of c) eqn:Ed.
      + pose proof (scan_digits_length s2) as L2.
        destruct (scan_digits s2). simplify_eq. done.
      + exfalso. revert Ed. unfold digit_of.
        repeat (case_match; try done). intros _. bool_to_Prop. lia.
    - destruct (c =? 48)%N; [|done]. by intros [= <- <-]. }
  destruct integer as [[ds r0]|]; [|done]. specialize (Hint _ _ eq_refl). simpl.
  pose proof (scan_fraction_length r0) as Hf.
  destruct (scan_fraction r0) as [[frac r1]|]; simpl;
    [specialize (Hf _ _ eq_refl)|clear Hf];
    (match goal with |- context [scan_exponent ?x] => pose proof (scan_exponent_length x) as He;
       destruct (scan_exponent x) as [[exp r2]|]; simpl; [specialize (He _ _ eq_refl)|clear He] end);
    repeat case_match; intros [= <- <-]; simpl in *; lia.
Qed.

(** *** Strings *)

Local Open Scope N_scope.

Lemma hex_value_digit n : n < 16 → hex_value (hex_digit n) = Some n.
Proof.
  intros Hn. unfold hex_value, hex_digit.
  repeat (case_match; bool_to_Prop; try lia); f_equal; lia.
Qed.

Lemma hex4_u_escape n :
  n < 65536 →
  ∃ h1 h2 h3 h4,
    u_escape n = [BACKSLASH; 117; h1; h2; h3; h4] ∧ hex4 h1 h2 h3 h4 = Some n.
Proof.
  intros Hn. eexists _, _, _, _. split; [reflexivity|].
  unfold hex4. rewrite !hex_value_digit by (apply N.mod_lt; lia). simpl. f_equal.
  zify. Z.to_euclidean_division_equations. lia.
Qed.

(** Bits below [2^10] and a multiple of [2^10] do not overlap. *)
Lemma lor_high_low a b : b < 1024 → N.lor (a * 1024) b = a * 1024 + b.
Proof.
  intros Hb.
  assert (N.land (a * 1024) b = 0) as Hland.
  { apply N.bits_inj. intros m. rewrite N.land_spec, N.bits_0.
    destruct (N.lt_ge_cases m 10) as [Hm|Hm].
    - change 1024 with (2 ^ 10). by rewrite N.mul_pow2_bits_low.
    - destruct (N.eq_dec b 0) as [->|Hb0]; [by rewrite N.bits_0, andb_false_r|].
      rewrite (N.bits_above_log2 b m), andb_false_r; [done|].
      apply N.lt_le_trans with 10; [|done].
      apply N.log2_lt_pow2; [lia | done]. }
  rewrite <- N.lxor_lor by done. symmetry. by apply N.add_nocarry_lxor.
Qed.

Lemma surrogates_of_astral c :
  0x10000 ≤ c → c < 0x110000 →
  let n := c - 0x10000 in
  let hi := N.lor 0xD800 (N.land (N.shiftr n 10) 0x3FF) in
  let lo := N.lor 0xDC00 (N.land n 0x3FF) in
  hi < 65536 ∧ lo < 65536
  ∧ is_high_surrogate hi = true ∧ is_low_surrogate lo = true
  ∧ join_surrogates hi lo = c.
Proof.
  intros Hlo Hhi n hi lo.
  pose proof (N.div_mod' n 1024) as Hdm.
  pose proof (N.mod_lt n 1024 ltac:(done)) as Hr.
  assert (n / 1024 < 1024) as Hq.
  { apply N.Div0.div_lt_upper_bound. subst n. lia. }
  assert (hi = 0xD800 + n / 1024) as Ehi.
  { subst hi. change 0x3FF with (N.ones 10). rewrite N.land_ones, N.shiftr_div_pow2.
    change (2 ^ 10) with 1024. change 0xD800 with (54 * 1024).
    rewrite lor_high_low by (apply N.mod_lt; lia).
    by rewrite N.mod_small. }
  assert (lo = 0xDC00 + n mod 1024) as Elo.
  { subst lo. change 0x3FF with (N.ones 10). rewrite N.land_ones.
    change (2 ^ 10) with 1024. change 0xDC00 with (55 * 1024).
    by rewrite lor_high_low. }
  unfold is_high_surrogate, is_low_surrogate, join_surrogates.
  rewrite Ehi, Elo. clear Ehi Elo hi lo.
  rewrite N.shiftl_mul_pow2. change (2 ^ 10) with 1024.
  rewrite (N.add_comm 0xD800), (N.add_comm 0xDC00), !N.add_sub.
  rewrite lor_high_low by done.
  assert (n = c - 0x10000) as Hn by done.
  generalize dependent (n / 1024). generalize dependent (n mod 1024).
  intros r Hr q Hdm Hq. clearbody n.
  split_and!; [lia | lia | | | lia];
    apply andb_true_iff; split; apply N.leb_le; lia.
Qed.

Lemma encode_char_encoded c : c < 0x110000 → encoded c (encode_char c).
Proof.
  intros Hc. unfold encode_char.
  destruct (c =? QUOTE) eqn:E1; [apply N.eqb_eq in E1 as ->; by apply EncodedEscape|].
  destruct (c =? BACKSLASH) eqn:E2; [apply N.eqb_eq in E2 as ->; by apply EncodedEscape|].
  destruct (c =? 10) eqn:E3; [apply N.eqb_eq in E3 as ->; by apply EncodedEscape|].
  destruct (c =? 13) eqn:E4; [apply N.eqb_eq in E4 as ->; by apply EncodedEscape|].
  destruct (c =? 9) eqn:E5; [apply N.eqb_eq in E5 as ->; by apply EncodedEscape|].
  destruct (c =? 12) eqn:E6; [apply N.eqb_eq in E6 as ->; by apply EncodedEscape|].
  destruct (c =? 8) eqn:E7; [apply N.eqb_eq in E7 as ->; by apply EncodedEscape|].
  destruct (_ && _) eqn:E8.
  { bool_to_Prop. by apply EncodedPlain. }
  destruct (c <? 0x10000) eqn:E9.
  { apply N.ltb_lt in E9.
    destruct (hex4_u_escape c) as (h1 & h2 & h3 & h4 & -> & Hhex); [done|].
    by apply EncodedHex. }
  apply N.ltb_ge in E9.
  destruct (surrogates_of_astral c E9 Hc) as (Hhi & Hlo & Hh & Hl & Hjoin). cbv zeta.
  destruct (hex4_u_escape _ Hhi) as (h1 & h2 & h3 & h4 & -> & Hhex).
  destruct (hex4_u_escape _ Hlo) as (l1 & l2 & l3 & l4 & -> & Hlex).
  by eapply EncodedPair.
Qed.

Lemma scanstring_escape e c t :
  e ≠ 117 → unescape e = Some c →
  scanstring (BACKSLASH :: e :: t) = cons_char c (scanstring t).
Proof.
  intros He Hc. cbn [scanstring].
  change (BACKSLASH =? QUOTE) with false. change (BACKSLASH =? BACKSLASH) with true.
  cbv iota. apply N.eqb_neq in He. by rewrite He, Hc.
Qed.

Lemma scanstring_plain c t :
  c ≠ QUOTE → c ≠ BACKSLASH → 32 ≤ c →
  scanstring (c :: t) = cons_char c (scanstring t).
Proof.
  intros H1%N.eqb_neq H2%N.eqb_neq H3. cbn [scanstring]. rewrite H1, H2.
  by rewrite (proj2 (N.leb_gt c 31)) by lia.
Qed.

Lemma scanstring_hex h1 h2 h3 h4 c t :
  hex4 h1 h2 h3 h4 = Some c →
  (if is_high_surrogate c then low_escape t else NoPair) = NoPair →
  scanstring (BACKSLASH :: 117 :: h1 :: h2 :: h3 :: h4 :: t) = cons_char c (scanstring t).
Proof.
  intros Hc Hla. cbn [scanstring].
  change (BACKSLASH =? QUOTE) with false. change (BACKSLASH =? BACKSLASH) with true.
  change (117 =? 117) with true. cbv iota. by rewrite Hc, Hla.
Qed.

Lemma scanstring_pair h1 h2 h3 h4 l1 l2 l3 l4 hi lo t :
  hex4 h1 h2 h3 h4 = Some hi → hex4 l1 l2 l3 l4 = Some lo →
  is_high_surrogate hi = true → is_low_surrogate lo = true →
  scanstring (BACKSLASH :: 117 :: h1 :: h2 :: h3 :: h4
                :: BACKSLASH :: 117 :: l1 :: l2 :: l3 :: l4 :: t)
  = cons_char (join_surrogates hi lo) (scanstring t).
Proof.
  intros Hhi Hlo Hh Hl. cbn [scanstring].
  change (BACKSLASH =? QUOTE) with false. change (BACKSLASH =? BACKSLASH) with true.
  change (117 =? 117) with true. cbv iota. rewrite Hhi, Hh.
  unfold low_escape.
  change (BACKSLASH =? BACKSLASH) with true. change (117 =? 117) with true.
  cbn [andb]. by rewrite Hlo, Hl.
Qed.

(** After a high surrogate, an encoded character that is not a low
    surrogate is not taken for the second half of a pair. *)
Lemma low_escape_encoded c enc t :
  encoded c enc → is_low_surrogate c = false → low_escape (enc ++ t) = NoPair.
Proof.
  intros Henc Hc. destruct Henc as [e He _| H1 H2 _ |h1 h2 h3 h4 Hhex _|h1 h2 h3 h4 l1 l2 l3 l4 hi lo Hhex _ Hh _ _];
    cbn [app]; unfold low_escape.
  - apply N.eqb_neq in He. rewrite He, andb_false_r. by repeat case_match.
  - apply N.eqb_neq in H2. rewrite H2. by repeat case_match.
  - change (BACKSLASH =? BACKSLASH) with true. change (117 =? 117) with true.
    cbn [andb]. by rewrite Hhex, Hc.
  - change (BACKSLASH =? BACKSLASH) with true. change (117 =? 117) with true.
    cbn [andb]. rewrite Hhex.
    replace (is_low_surrogate hi) with false; [done|].
    revert Hh. unfold is_high_surrogate, is_low_surrogate. intros. bool_to_Prop.
    symmetry. apply andb_false_iff. left. apply N.leb_gt. lia.
Qed.

Lemma low_escape_quote t : low_escape (QUOTE :: t) = NoPair.
Proof. unfold low_escape. by repeat case_match. Qed.

Lemma encode_chars_cons c d : encode_chars (c :: d) = encode_char c ++ encode_chars d.
Proof. reflexivity. Qed.

(** Strings without a high surrogate directly before a low one are read
    back as they were written. *)
Lemma scanstring_encode_chars (d t : list N) :
  is_str d → surrogate_pair_free d = true →
  scanstring (encode_chars d ++ QUOTE :: t) = Some (d, t).
Proof.
  induction d as [|c d IH]; intros Hstr Hfree; [done|].
  apply Forall_cons in Hstr as [Hc Hstr].
  assert (surrogate_pair_free d = true) as Hfree'.
  { destruct d; [done|]. simpl in Hfree. by apply andb_true_iff in Hfree as [_ ?]. }
  specialize (IH Hstr Hfree').
  rewrite encode_chars_cons, <- app_assoc.
  assert ((if is_high_surrogate c then low_escape (encode_chars d ++ QUOTE :: t) else NoPair)
          = NoPair) as Hla.
  { destruct (is_high_surrogate c) eqn:Hh; [|done].
    destruct d as [|c' d']; [apply low_escape_quote|].
    rewrite encode_chars_cons, <- app_assoc.
    apply Forall_cons in Hstr as [Hc' _].
    apply low_escape_encoded with c'; [by apply encode_char_encoded|].
    simpl in Hfree. rewrite Hh in Hfree. simpl in Hfree.
    apply andb_true_iff in Hfree as [Hfree _]. by apply negb_true_iff in Hfree. }
  destruct (encode_char_encoded c Hc)
    as [e He Hun| H1 H2 H3 |h1 h2 h3 h4 Hhex _|h1 h2 h3 h4 l1 l2 l3 l4 hi lo Hhex Hlex Hh Hl Hjoin];
    cbn [app].
  - by rewrite (scanstring_escape e c), IH.
  - by rewrite scanstring_plain, IH.
  - by rewrite (scanstring_hex _ _ _ _ c), IH.
  - by rewrite (scanstring_pair _ _ _ _ _ _ _ _ hi lo), IH, Hjoin.
Qed.

Local Close Scope N_scope.

Local Arguments startswith : simpl never.
Local Arguments u : simpl never.
Local Arguments match_number : simpl never.
Local Arguments scanstring : simpl never.
Local Arguments dict_of_pairs : simpl never.

Lemma scan_shorter n :
  (∀ s v r, scan_once n s = Scanned v r → length r < length s)
  ∧ (∀ s vs r, array_items n s = Scanned vs r → length r < length s)
  ∧ (∀ s kvs r, object_items n s = Scanned kvs r → length r < length s).
Proof.
  induction n as [|n (IH1 & IH2 & IH3)]; [by split_and!|].
  split_and!.
  - intros s v r. simpl. destruct s as [|c rest]; [done|].
    pose proof (skip_ws_length rest) as Hws.
    repeat (case_match; try done); intros [= <- <-];
      repeat match goal with
      | H : scanstring _ = Some _ |- _ => apply scanstring_shorter in H
      | H : match_number _ = Some _ |- _ => apply match_number_shorter in H
      | H : object_items n _ = Scanned _ _ |- _ => apply IH3 in H
      | H : array_items n _ = Scanned _ _ |- _ => apply IH2 in H
      | H : skip_ws _ = _ |- _ => rewrite H in *
      end; rewrite ?length_drop; simpl in *; lia.
  - intros s vs r. simpl.
    destruct (scan_once n s) as [v r1| |] eqn:E1; [|done..]. apply IH1 in E1.
    pose proof (skip_ws_length r1) as Hws.
    destruct (skip_ws r1) as [|c r2] eqn:E2; [done|]. simpl in Hws.
    destruct (c =? 93)%N; [intros [= <- <-]; lia|].
    destruct (c =? 44)%N; [|done].
    pose proof (skip_ws_length r2) as Hws2.
    destruct (array_items n (skip_ws r2)) as [vs' r3| |] eqn:E3; [|done..].
    apply IH2 in E3. intros [= <- <-]. lia.
  - intros s kvs r. simpl. destruct s as [|q s1]; [done|].
    destruct (q =? QUOTE)%N; [|done].
    destruct (scanstring s1) as [[key r0]|] eqn:E0; [|done]. apply scanstring_shorter in E0.
    pose proof (skip_ws_length r0) as Hws0.
    destruct (skip_ws r0) as [|colon r1]; [done|]. simpl in Hws0.
    destruct (colon =? 58)%N; [|done].
    pose proof (skip_ws_length r1) as Hws1.
    destruct (scan_once n (skip_ws r1)) as [v r2| |] eqn:E1; [|done..]. apply IH1 in E1.
    pose proof (skip_ws_length r2) as Hws2.
    destruct (skip_ws r2) as [|c r3]; [done|]. simpl in Hws2.
    destruct (c =? 125)%N; [intros [= <- <-]; simpl; lia|].
    destruct (c =? 44)%N; [|done].
    pose proof (skip_ws_length r3) as Hws3.
    destruct (object_items n (skip_ws r3)) as [kvs' r4| |] eqn:E3; [|done..].
    apply IH3 in E3. intros [= <- <-]. simpl. lia.
Qed.

(** The budget [2 * length s + 1] is enough: the scanner never runs out. *)
Lemma scan_budget n :
  (∀ s, 2 * length s < n → scan_once n s ≠ Exhausted)
  ∧ (∀ s, 2 * length s + 1 < n → array_items n s ≠ Exhausted)
  ∧ (∀ s, 2 * length s + 1 < n → object_items n s ≠ Exhausted).
Proof.
  induction n as [|n (IH1 & IH2 & IH3)]; [split_and!; intros; lia|].
  destruct (scan_shorter n) as (L1 & L2 & L3).
  split_and!.
  - intros s Hn. simpl. destruct s as [|c rest]; [done|]. simpl in Hn.
    pose proof (skip_ws_length rest) as Hws.
    destruct (c =? QUOTE)%N; [by destruct (scanstring rest) as [[??]|]|].
    destruct (c =? 123)%N.
    { destruct (skip_ws rest) as [|c' r'] eqn:E; [done|]. simpl in Hws.
      destruct (c' =? 125)%N; [done|].
      pose proof (IH3 (c' :: r')) as H3.
      destruct (object_items n (c' :: r')); [done..|]. exfalso. apply H3; [simpl; lia | done]. }
    destruct (c =? 91)%N.
    { destruct (skip_ws rest) as [|c' r'] eqn:E; [done|]. simpl in Hws.
      destruct (c' =? 93)%N; [done|].
      pose proof (IH2 (c' :: r')) as H2.
      destruct (array_items n (c' :: r')); [done..|]. exfalso. apply H2; [simpl; lia | done]. }
    repeat (case_match; try done).
  - intros s Hn. simpl.
    pose proof (IH1 s) as H1. pose proof (L1 s) as Hl1.
    destruct (scan_once n s) as [v r1| |]; [|done|exfalso; apply H1; [lia|done]].
    specialize (Hl1 _ _ eq_refl).
    pose proof (skip_ws_length r1) as Hws.
    destruct (skip_ws r1) as [|c r2]; [done|]. simpl in Hws.
    destruct (c =? 93)%N; [done|]. destruct (c =? 44)%N; [|done].
    pose proof (skip_ws_length r2) as Hws2.
    pose proof (IH2 (skip_ws r2)) as H2.
    destruct (array_items n (skip_ws r2)); [done..|]. exfalso. apply H2; [lia|done].
  - intros s Hn. simpl. destruct s as [|q s1]; [done|]. simpl in Hn.
    destruct (q =? QUOTE)%N; [|done].
    destruct (scanstring s1) as [[key r0]|] eqn:E0; [|done]. apply scanstring_shorter in E0.
    pose proof (skip_ws_length r0) as Hws0.
    destruct (skip_ws r0) as [|colon r1]; [done|]. simpl in Hws0.
    destruct (colon =? 58)%N; [|done].
    pose proof (skip_ws_length r1) as Hws1.
    pose proof (IH1 (skip_ws r1)) as H1. pose proof (L1 (skip_ws r1)) as Hl1.
    destruct (scan_once n (skip_ws r1)) as [v r2| |]; [|done|exfalso; apply H1; [lia|done]].
    specialize (Hl1 _ _ eq_refl).
    pose proof (skip_ws_length r2) as Hws2.
    destruct (skip_ws r2) as [|c r3]; [done|]. simpl in Hws2.
    destruct (c =? 125)%N; [done|]. destruct (c =? 44)%N; [|done].
    pose proof (skip_ws_length r3) as Hws3.
    pose proof (IH3 (skip_ws r3)) as H3.
    destruct (object_items n (skip_ws r3)); [done..|]. exfalso. apply H3; [lia|done].
Qed.

Lemma scan_once_budget (s : str) : scan_once (budget_for s) s ≠ Exhausted.
Proof. apply scan_budget. unfold budget_for. lia. Qed.

(** *** Numbers, tasks and task lists *)

Local Open Scope N_scope.

Local Arguments scan_fraction : simpl never.
Local Arguments scan_exponent : simpl never.
Local Arguments N.of_uint : simpl never.
Local Arguments Pos.of_uint : simpl never.

(** *** Numbers *)

Lemma scan_digits_uint_text (d : Decimal.uint) (c : N) (t : list N) :
  digit_of c = None → scan_digits (uint_text d ++ c :: t) = (d, c :: t).
Proof.
  intros Hc. induction d; simpl; rewrite ?IHd, ?Hc; done.
Qed.

(** The decimal numeral of a positive number starts with a digit from 1
    to 9. *)
Lemma uint_text_pos (p : positive) :
  ∃ c t, uint_text (Pos.to_uint p) = c :: t ∧ 49 ≤ c ≤ 57.
Proof.
  pose proof (DecimalPos.Unsigned.to_uint_nonnil p) as Hnil.
  assert (Decimal.unorm (Pos.to_uint p) = Pos.to_uint p) as Hnorm.
  { by rewrite <- DecimalPos.Unsigned.to_of, DecimalPos.Unsigned.of_to. }
  pose proof (DecimalPos.Unsigned.to_uint_nonzero p) as Hzero.
  destruct (Pos.to_uint p) as [|d|d|d|d|d|d|d|d|d|d] eqn:E; [done| |simpl; eexists _, _; split; [done|lia]..].
  exfalso. rewrite DecimalFacts.unorm_D0 in Hnorm.
  unfold Decimal.unorm in Hnorm.
  pose proof (DecimalFacts.nzhead_nonzero d d) as Hnz.
  destruct (Decimal.nzhead d) eqn:En; done.
Qed.

Lemma match_number_int (z : Z) (t : list N) :
  match_number (int_text z ++ 44 :: t) = Some (VInt z, 44 :: t).
Proof.
  assert (∀ t, scan_fraction (44 :: t) = None) as Hfrac by (by intros [|??]).
  assert (∀ t, scan_exponent (44 :: t) = None) as Hexp by done.
  assert (∀ p, match_number (uint_text (Pos.to_uint p) ++ 44 :: t)
               = Some (VInt (Zpos p), 44 :: t)) as Hpos.
  { intros p. destruct (uint_text_pos p) as (c & t' & E & Hc).
    unfold match_number. rewrite E. cbn [app].
    rewrite (proj2 (N.eqb_neq c 45)) by lia.
    rewrite (proj2 (N.leb_le 49 c)), (proj2 (N.leb_le c 57)) by lia. cbn [andb].
    change (c :: t' ++ 44 :: t) with ((c :: t') ++ 44 :: t). rewrite <- E.
    rewrite scan_digits_uint_text by done. simpl.
    rewrite Hfrac. simpl. rewrite ?Hexp. simpl.
    unfold N.of_uint. by rewrite DecimalPos.Unsigned.of_to. }
  destruct z as [|p|p].
  - change (int_text 0 ++ 44 :: t) with (48 :: 44 :: t).
    unfold match_number. simpl. rewrite Hfrac. simpl. by rewrite ?Hexp.
  - apply Hpos.
  - change (int_text (Z.neg p)) with (45 :: uint_text (Pos.to_uint p)).
    destruct (uint_text_pos p) as (c & t' & E & Hc).
    unfold match_number. cbn [app]. change (45 =? 45) with true. cbv iota beta.
    rewrite E. cbn [app].
    rewrite (proj2 (N.leb_le 49 c)), (proj2 (N.leb_le c 57)) by lia. cbn [andb].
    change (c :: t' ++ 44 :: t) with ((c :: t') ++ 44 :: t). rewrite <- E.
    rewrite scan_digits_uint_text by done. simpl.
    rewrite Hfrac. simpl. rewrite ?Hexp. simpl.
    unfold N.of_uint. by rewrite DecimalPos.Unsigned.of_to.
Qed.

Lemma startswith_head_ne (a : ascii) (p : string) (c : N) (s : list N) :
  c ≠ N_of_ascii a → startswith (u (String a p)) (c :: s) = false.
Proof.
  intros Hne. unfold startswith. apply bool_decide_eq_false.
  change (u (String a p)) with (N_of_ascii a :: u p). simpl. congruence.
Qed.

Lemma startswith_second_ne (a0 a1 : ascii) (p : string) (c0 c : N) (s : list N) :
  c ≠ N_of_ascii a1 → startswith (u (String a0 (String a1 p))) (c0 :: c :: s) = false.
Proof.
  intros Hne. unfold startswith. apply bool_decide_eq_false.
  change (u (String a0 (String a1 p))) with (N_of_ascii a0 :: N_of_ascii a1 :: u p).
  simpl. congruence.
Qed.

Lemma scan_once_int (n : nat) (z : Z) (t : list N) :
  scan_once (S n) (int_text z ++ 44 :: t) = Scanned (VInt z) (44 :: t).
Proof.
  pose proof (match_number_int z t) as Hnum.
  assert (∃ c t', int_text z ++ 44 :: t = c :: t'
                  ∧ (48 ≤ c ≤ 57 ∨ c = 45 ∧ ∃ c' t'', t' = c' :: t'' ∧ 49 ≤ c' ≤ 57))
    as (c & t' & E & Hc).
  { destruct z as [|p|p].
    - eexists _, _. split; [reflexivity|]. left. lia.
    - destruct (uint_text_pos p) as (c & t' & E & Hc).
      exists c, (t' ++ 44 :: t). split; [|left; lia].
      change (int_text (Z.pos p)) with (uint_text (Pos.to_uint p)). by rewrite E.
    - destruct (uint_text_pos p) as (c & t' & E & Hc).
      exists 45, (c :: t' ++ 44 :: t). split; [|right; split; [done|by eexists _, _]].
      change (int_text (Z.neg p)) with (45 :: uint_text (Pos.to_uint p)). by rewrite E. }
  rewrite E in *. cbn [scan_once].
  rewrite (proj2 (N.eqb_neq c QUOTE)), (proj2 (N.eqb_neq c 123)), (proj2 (N.eqb_neq c 91))
    by (unfold QUOTE; lia).
  rewrite !startswith_head_ne by (compute; lia).
  replace (startswith (u "-Infinity") (c :: t')) with false; [by rewrite Hnum|].
  symmetry. destruct Hc as [Hc|[-> (c' & t'' & -> & Hc')]].
  - apply startswith_head_ne. compute. lia.
  - apply startswith_second_ne. compute. lia.
Qed.

Local Arguments scan_once : simpl never.
Local Arguments array_items : simpl never.
Local Arguments object_items : simpl never.
Local Arguments skip_ws : simpl never.
Local Arguments encode_chars : simpl never.
Local Arguments int_text : simpl never.

(** *** Tasks and task lists *)

Lemma skip_ws_cons (c : N) (t : list N) : is_json_ws c = false → skip_ws (c :: t) = c :: t.
Proof. intros H. unfold skip_ws. by rewrite H. Qed.

Lemma skip_ws_space (t : list N) : skip_ws (32 :: t) = skip_ws t.
Proof. reflexivity. Qed.

(** The scanner, one step at a time. *)
Lemma scan_once_quote (n : nat) (t : list N) :
  scan_once (S n) (QUOTE :: t)
  = match scanstring t with
    | Some (s, r) => Scanned (VStr s) r
    | None => Malformed
    end.
Proof. reflexivity. Qed.

Lemma scan_once_brace (n : nat) (c : N) (t : list N) :
  is_json_ws c = false → (c =? 125) = false →
  scan_once (S n) (123 :: c :: t)
  = match object_items n (c :: t) with
    | Scanned pairs r => Scanned (VDict (dict_of_pairs pairs)) r
    | Malformed => Malformed
    | Exhausted => Exhausted
    end.
Proof.
  intros Hws Hc. unfold scan_once at 1; fold scan_once object_items array_items.
  change (123 =? QUOTE) with false. change (123 =? 123) with true. cbv iota.
  by rewrite skip_ws_cons, Hc.
Qed.

Lemma scan_once_bracket (n : nat) (c : N) (t : list N) :
  is_json_ws c = false → (c =? 93) = false →
  scan_once (S n) (91 :: c :: t)
  = match array_items n (c :: t) with
    | Scanned items r => Scanned (VList items) r
    | Malformed => Malformed
    | Exhausted => Exhausted
    end.
Proof.
  intros Hws Hc. unfold scan_once at 1; fold scan_once object_items array_items.
  change (91 =? QUOTE) with false. change (91 =? 123) with false.
  change (91 =? 91) with true. cbv iota.
  by rewrite skip_ws_cons, Hc.
Qed.

Lemma object_items_quote (n : nat) (t : list N) :
  object_items (S n) (QUOTE :: t)
  = match scanstring t with
    | Some (key, r) =>
      match skip_ws r with
      | colon :: r1 =>
        if colon =? 58 then
          match scan_once n (skip_ws r1) with
          | Scanned v r2 =>
            match skip_ws r2 with
            | c :: r3 =>
                if c =? 125 then Scanned [(key, v)] r3
                else if c =? 44 then
                  match object_items n (skip_ws r3) with
                  | Scanned kvs r4 => Scanned ((key, v) :: kvs) r4
                  | Malformed => Malformed
                  | Exhausted => Exhausted
                  end
                else Malformed
            | [] => Malformed
            end
          | Malformed => Malformed
          | Exhausted => Exhausted
          end
        else Malformed
      | [] => Malformed
      end
    | None => Malformed
    end.
Proof. reflexivity. Qed.

Lemma array_items_S (n : nat) (s : list N) :
  array_items (S n) s
  = match scan_once n s with
    | Scanned v r =>
      match skip_ws r with
      | c :: r' =>
          if c =? 93 then Scanned [v] r'
          else if c =? 44 then
            match array_items n (skip_ws r') with
            | Scanned vs r'' => Scanned (v :: vs) r''
            | Malformed => Malformed
            | Exhausted => Exhausted
            end
          else Malformed
      | [] => Malformed
      end
    | Malformed => Malformed
    | Exhausted => Exhausted
    end.
Proof. reflexivity. Qed.

Lemma scan_once_str (n : nat) (d t : list N) :
  plain d → scan_once (S n) (encode_str d ++ t) = Scanned (VStr d) t.
Proof.
  intros [Hstr Hfree]. unfold encode_str. cbn [app].
  rewrite scan_once_quote, <- app_assoc. cbn [app].
  by rewrite (scanstring_encode_chars d t Hstr Hfree).
Qed.

Lemma scan_once_bool (n : nat) (b : bool) (t : list N) :
  scan_once (S n) (encode_bool b ++ 125 :: t) = Scanned (VBool b) (125 :: t).
Proof. by destruct b. Qed.

(** One item [key: value] of an object, and what [JSONObject] does after
    it. *)
Lemma object_items_field (n : nat) (key text after : list N) (v : value) :
  plain key →
  skip_ws (text ++ after) = text ++ after →
  scan_once n (text ++ after) = Scanned v after →
  object_items (S n) (encode_field key text ++ after)
  = match skip_ws after with
    | c :: r =>
        if c =? 125 then Scanned [(key, v)] r
        else if c =? 44 then
          match object_items n (skip_ws r) with
          | Scanned kvs r' => Scanned ((key, v) :: kvs) r'
          | Malformed => Malformed
          | Exhausted => Exhausted
          end
        else Malformed
    | [] => Malformed
    end.
Proof.
  intros [Hstr Hfree] Hws Hscan.
  unfold encode_field, encode_str. cbn [app]. rewrite <- !app_assoc. cbn [app].
  rewrite object_items_quote.
  change (u ": " ++ text ++ after) with (58 :: 32 :: (text ++ after)).
  rewrite (scanstring_encode_chars key _ Hstr Hfree).
  rewrite (skip_ws_cons 58) by done. change (58 =? 58) with true. cbv iota.
  by rewrite skip_ws_space, Hws, Hscan.
Qed.

Lemma plain_ascii (s : list N) : is_ascii s = true → plain s.
Proof.
  unfold is_ascii. intros H%Is_true_true_2. rewrite forallb_True in H. split.
  - eapply Forall_impl; [exact H|]. intros c Hc. apply Is_true_true, N.ltb_lt in Hc.
    simpl. lia.
  - induction H as [|c l Hc H IH]; [done|]. destruct l as [|c' l']; [done|].
    change (surrogate_pair_free (c :: c' :: l'))
      with (negb (is_high_surrogate c && is_low_surrogate c') && surrogate_pair_free (c' :: l')).
    rewrite IH, andb_true_r. apply negb_true_iff, andb_false_iff. left.
    apply Is_true_true, N.ltb_lt in Hc. apply andb_false_iff. left. apply N.leb_gt. lia.
Qed.

Lemma encode_task_app (task : Task) (t : list N) :
  encode_task task ++ t
  = 123 :: (encode_field (u "id") (int_text (id task))
      ++ 44 :: 32 :: (encode_field (u "description") (encode_str (description task))
      ++ 44 :: 32 :: (encode_field (u "completed") (encode_bool (completed task))
      ++ 125 :: t))).
Proof. unfold encode_task, join_comma. by rewrite <- !app_assoc. Qed.

Lemma skip_ws_int_text z t : skip_ws (int_text z ++ 44 :: t) = int_text z ++ 44 :: t.
Proof.
  destruct z as [|p|p]; [done| |done].
  change (int_text (Z.pos p)) with (uint_text (Pos.to_uint p)).
  destruct (uint_text_pos p) as (c & t' & -> & Hc). apply skip_ws_cons.
  unfold is_json_ws. repeat (apply orb_false_iff; split); apply N.eqb_neq; lia.
Qed.

Lemma encode_field_cons (key text t : list N) :
  encode_field key text ++ t = QUOTE :: (encode_chars key ++ QUOTE :: 58 :: 32 :: (text ++ t)).
Proof. unfold encode_field, encode_str. cbn [app]. by rewrite <- !app_assoc. Qed.

Lemma skip_ws_encode_field (key text t : list N) :
  skip_ws (encode_field key text ++ t) = encode_field key text ++ t.
Proof. rewrite encode_field_cons. by apply skip_ws_cons. Qed.

Lemma scan_once_brace_field (n : nat) (key text t : list N) :
  scan_once (S n) (123 :: encode_field key text ++ t)
  = match object_items n (encode_field key text ++ t) with
    | Scanned pairs r => Scanned (VDict (dict_of_pairs pairs)) r
    | Malformed => Malformed
    | Exhausted => Exhausted
    end.
Proof. rewrite encode_field_cons. by apply scan_once_brace. Qed.

(** A task dict is read back as written. *)
Lemma scan_once_task (n : nat) (task : Task) (t : list N) :
  plain (description task) →
  scan_once (5 + n) (encode_task task ++ t) = Scanned (value_of_task task) t.
Proof.
  intros Hd. rewrite encode_task_app.
  change (5 + n)%nat with (S (S (S (S (S n))))).
  rewrite scan_once_brace_field.
  rewrite (object_items_field _ _ _ _ (VInt (id task)));
    [|by apply plain_ascii|apply skip_ws_int_text|apply scan_once_int].
  rewrite (skip_ws_cons 44) by done. change (44 =? 125) with false. change (44 =? 44) with true.
  cbv iota. rewrite skip_ws_space, skip_ws_encode_field.
  rewrite (object_items_field _ _ _ _ (VStr (description task)));
    [|by apply plain_ascii|done|by apply scan_once_str].
  rewrite (skip_ws_cons 44) by done. change (44 =? 125) with false. change (44 =? 44) with true.
  cbv iota. rewrite skip_ws_space, skip_ws_encode_field.
  rewrite (object_items_field _ _ _ _ (VBool (completed task)));
    [|by apply plain_ascii|by destruct (completed task)|by apply scan_once_bool].
  rewrite (skip_ws_cons 125) by done. change (125 =? 125) with true. cbv iota.
  reflexivity.
Qed.

Lemma encode_task_cons (task : Task) (t : list N) :
  ∃ t', encode_task task ++ t = 123 :: QUOTE :: t'.
Proof. rewrite encode_task_app, encode_field_cons. by eexists. Qed.

Lemma join_comma_cons (task task' : Task) (l : list Task) :
  join_comma (encode_task <$> task :: task' :: l)
  = encode_task task ++ 44 :: 32 :: join_comma (encode_task <$> task' :: l).
Proof. reflexivity. Qed.

(** The items of a non-empty task list are read back as written. *)
Lemma array_items_tasks (n : nat) (task : Task) (l : list Task) (t : list N) :
  Forall (λ task, plain (description task)) (task :: l) →
  array_items (6 + length l + n) (join_comma (encode_task <$> task :: l) ++ 93 :: t)
  = Scanned (value_of_task <$> task :: l) t.
Proof.
  revert task. induction l as [|task' l IH]; intros task [Hd Hl]%Forall_cons.
  - change (join_comma (encode_task <$> [task])) with (encode_task task).
    change (6 + length [] + n)%nat with (S (5 + n)).
    rewrite array_items_S, scan_once_task by done.
    by rewrite (skip_ws_cons 93).
  - rewrite join_comma_cons, <- app_assoc. cbn [app length].
    replace (6 + S (length l) + n)%nat with (S (5 + (1 + length l + n))) by lia.
    rewrite array_items_S, scan_once_task by done.
    rewrite (skip_ws_cons 44) by done.
    change (44 =? 93) with false. change (44 =? 44) with true. cbv iota.
    rewrite skip_ws_space.
    assert (skip_ws (join_comma (encode_task <$> task' :: l) ++ 93 :: t)
            = join_comma (encode_task <$> task' :: l) ++ 93 :: t) as ->.
    { destruct l as [|task'' l].
      - change (join_comma (encode_task <$> [task'])) with (encode_task task').
        destruct (encode_task_cons task' (93 :: t)) as [t'' ->]. by apply skip_ws_cons.
      - rewrite join_comma_cons, <- app_assoc.
        destruct (encode_task_cons task' ((44 :: 32 :: join_comma (encode_task <$> task'' :: l)) ++ 93 :: t))
          as [t'' ->]. by apply skip_ws_cons. }
    replace (5 + (1 + length l + n))%nat with (6 + length l + n)%nat by lia.
    by rewrite IH.
Qed.

Lemma length_join_comma (l : list Task) : (length l ≤ length (join_comma (encode_task <$> l)))%nat.
Proof.
  induction l as [|task [|task' l] IH]; [done|simpl; lia|].
  rewrite join_comma_cons. destruct (encode_task_cons task []) as [t' Et'].
  rewrite app_nil_r in Et'. rewrite length_app, Et'. cbn [length] in *. lia.
Qed.

Lemma json_dumps_cons (l : list Task) :
  json_dumps l = 91 :: (join_comma (encode_task <$> l) ++ [93]).
Proof. reflexivity. Qed.

Lemma join_comma_head (task : Task) (l : list Task) (t : list N) :
  ∃ t', join_comma (encode_task <$> task :: l) ++ t = 123 :: QUOTE :: t'.
Proof.
  destruct l as [|task' l].
  - apply encode_task_cons.
  - rewrite join_comma_cons, <- app_assoc. apply encode_task_cons.
Qed.

(** [json.loads(json.dumps(tasks))] gives the list of dicts back. *)
Lemma json_loads_dumps (l : list Task) :
  Forall (λ task, plain (description task)) l →
  json_loads (json_dumps l) = Some (value_of_tasks l).
Proof.
  intros Hl. unfold json_loads. rewrite json_dumps_cons.
  assert (∀ t, startswith [0xFEFF] (91 :: t) = false) as -> by done.
  rewrite (skip_ws_cons 91) by done.
  destruct l as [|task l]; [done|].
  pose proof (length_join_comma (task :: l)) as Hlen.
  destruct (join_comma_head task l [93]) as [t' E].
  unfold budget_for. cbn [length] in *. rewrite length_app in *. cbn [length] in *.
  set (k := (2 * S (length (join_comma (encode_task <$> task :: l)) + 1))%nat).
  rewrite E, scan_once_bracket, <- E by done.
  replace k with (6 + length l + (k - 6 - length l))%nat by lia.
  by rewrite array_items_tasks.
Qed.

Lemma task_of_value_of_task (task : Task) : task_of_value (value_of_task task) = Some task.
Proof. by destruct task. Qed.

Lemma tasks_of_value_of_tasks (l : list Task) : tasks_of_value (value_of_tasks l) = Some l.
Proof.
  unfold tasks_of_value, value_of_tasks. apply mapM_Some.
  apply Forall2_fmap_l, Forall_Forall2_diag, Forall_forall.
  intros task _. apply task_of_value_of_task.
Qed.

End JsonFacts.

(** *** The budget is immaterial *)

Section Budget.

Local Arguments startswith : simpl never.
Local Arguments u : simpl never.
Local Arguments match_number : simpl never.
Local Arguments scanstring : simpl never.
Local Arguments dict_of_pairs : simpl never.
Local Arguments skip_ws : simpl never.

(** A larger budget does not change an outcome that did not exhaust it. *)
Lemma scan_mono (n : nat) :
  (∀ s, scan_once n s ≠ Exhausted → scan_once (S n) s = scan_once n s)
  ∧ (∀ s, array_items n s ≠ Exhausted → array_items (S n) s = array_items n s)
  ∧ (∀ s, object_items n s ≠ Exhausted → object_items (S n) s = object_items n s).
Proof.
  induction n as [|n (IH1 & IH2 & IH3)]; [by split_and!|].
  split_and!.
  - intros s. destruct s as [|c rest]; [done|].
    cbn [scan_once].
    repeat (case_match; try done);
      repeat match goal with
      | H : object_items n ?x = _, H' : object_items (S n) ?x = _ |- _ =>
          rewrite IH3 in H' by (by rewrite H); rewrite H in H'; clear H
      | H : array_items n ?x = _, H' : array_items (S n) ?x = _ |- _ =>
          rewrite IH2 in H' by (by rewrite H); rewrite H in H'; clear H
      end; simplify_eq; done.
  - intros s. rewrite (array_items_S (S n)), (array_items_S n).
    destruct (scan_once n s) as [v r| |] eqn:E1; [|by rewrite IH1, E1 by (by rewrite E1)|done].
    rewrite IH1, E1 by (by rewrite E1).
    destruct (skip_ws r) as [|c r']; [done|].
    destruct (c =? 93)%N; [done|]. destruct (c =? 44)%N; [|done].
    destruct (array_items n (skip_ws r')) as [vs r''| |] eqn:E2; [| |done];
      by rewrite IH2, E2 by (by rewrite E2).
  - intros s. destruct s as [|q s1]; [done|].
    destruct (q =? QUOTE)%N eqn:Eq; [|by cbn [object_items]; rewrite Eq].
    apply N.eqb_eq in Eq as ->.
    rewrite (object_items_quote (S n)), (object_items_quote n).
    destruct (scanstring s1) as [[key r]|]; [|done].
    destruct (skip_ws r) as [|colon r1]; [done|].
    destruct (colon =? 58)%N; [|done].
    destruct (scan_once n (skip_ws r1)) as [v r2| |] eqn:E1;
      [|by rewrite IH1, E1 by (by rewrite E1)|done].
    rewrite IH1, E1 by (by rewrite E1).
    destruct (skip_ws r2) as [|c r3]; [done|].
    destruct (c =? 125)%N; [done|]. destruct (c =? 44)%N; [|done].
    destruct (object_items n (skip_ws r3)) as [kvs r4| |] eqn:E2; [| |done];
      by rewrite IH3, E2 by (by rewrite E2).
Qed.

(** [json_loads] does not depend on the budget it picks: any larger budget
    gives the same outcome. *)
Lemma scan_once_any_budget (s : list N) (n : nat) :
  budget_for s ≤ n → scan_once n s = scan_once (budget_for s) s.
Proof.
  intros Hn. replace n with ((n - budget_for s) + budget_for s) by lia.
  induction (n - budget_for s) as [|k IH]; [done|].
  cbn [Nat.add]. rewrite <- IH. apply scan_mono. rewrite IH. apply scan_once_budget.
Qed.

End Budget.

(** ** The task store *)

Section StoreFacts.

Implicit Types (self : TodoApp) (fs : FS) (task : Task) (task_id : Z).

Lemma first_with_id_Some task_id (l : list Task) i task :
  first_with_id task_id l = Some (i, task) ↔
    l !! i = Some task ∧ id task = task_id
    ∧ ∀ j task', l !! j = Some task' → j < i → id task' ≠ task_id.
Proof. exact (list_find_Some (λ task, id task = task_id) l i task). Qed.

Lemma first_with_id_None task_id (l : list Task) :
  first_with_id task_id l = None ↔ ∀ task, task ∈ l → id task ≠ task_id.
Proof.
  unfold first_with_id. rewrite list_find_None, Forall_forall. reflexivity.
Qed.

Lemma first_with_id_is_Some task_id (l : list Task) :
  is_Some (first_with_id task_id l) ↔ ∃ task, task ∈ l ∧ id task = task_id.
Proof.
  split.
  - intros [[i task] H]. apply first_with_id_Some in H as (H & ? & _).
    exists task. split; [by eapply list_elem_of_lookup_2 | done].
  - intros (task & Hin & Hid).
    destruct (first_with_id task_id l) as [p|] eqn:E; [by eexists|].
    rewrite first_with_id_None in E. by destruct (E task Hin).
Qed.

(** [list.remove] called with the first task that has the id removes the
    item at that task's index: an item equal to it has the same id, so it
    cannot stand earlier in the list. *)
Lemma remove_first_with_id task_id (l : list Task) i task :
  first_with_id task_id l = Some (i, task) →
  remove task l = Some (take i l ++ drop (S i) l).
Proof.
  revert i. induction l as [|y l IH]; intros i H.
  - discriminate.
  - apply first_with_id_Some in H as (Hi & Hid & Hfirst). simpl.
    destruct (decide (y = task)) as [->|Hne].
    + destruct i as [|i]; [by rewrite drop_0|].
      destruct (Hfirst 0 task); [done | lia | done].
    + destruct i as [|i]; [simpl in Hi; congruence|].
      simpl in Hi. rewrite (IH i); [done|].
      apply first_with_id_Some. split_and!; [done..|].
      intros j task' Hj Hlt. apply (Hfirst (S j) task'); [done | lia].
Qed.

(** A task that is not completed stands, among the tasks that are not
    completed, at the rank given by the number of such tasks before it. *)
Lemma lookup_filter_open (l : list Task) i task :
  l !! i = Some task → completed task = false →
  filter (λ task, completed task = false) l
    !! length (filter (λ task, completed task = false) (take i l))
  = Some task.
Proof.
  intros Hi Hc.
  pose proof (take_drop_middle _ _ _ Hi) as Hsplit.
  set (before := take i l) in *.
  rewrite <- Hsplit, filter_app, filter_cons_True by done.
  by rewrite lookup_app_r, Nat.sub_diag by lia.
Qed.

End StoreFacts.

(** C1.  [add_task] appends exactly one task at the end of the list: its
    [id] is the length of the list before the call plus one, it is not
    completed, and its description is the string given (any string, the
    empty one included); the list is one longer. *)
Theorem add_task_appends (description : list N) (self : TodoApp) (fs : FS) :
  tasks (add_task description self fs).1
    = tasks self ++ [{| id := Z.of_nat (length (tasks self)) + 1;
                        description := description;
                        completed := false |}]
  ∧ length (list_tasks (add_task description self fs).1) = S (length (list_tasks self))
  ∧ tasks (add_task [] self fs).1
    = tasks self ++ [{| id := Z.of_nat (length (tasks self)) + 1;
                        description := [];
                        completed := false |}].
Proof.
  unfold add_task, list_tasks; simpl.
  split_and!; [done | | done].
  rewrite length_app; simpl; lia.
Qed.

(** C2.  [mark_complete] returns [True] exactly when some task has the id.
    It then sets [completed] on the first such task and changes nothing
    else; when it returns [False] the list (and the file) is unchanged. *)
Theorem mark_complete_first_match (task_id : Z) (self : TodoApp) (fs : FS) :
  let '(found, self', fs') := mark_complete task_id self fs in
  (found = true ↔ ∃ task, task ∈ tasks self ∧ id task = task_id)
  ∧ (found = true →
       ∃ i task,
         tasks self !! i = Some task ∧ id task = task_id
         ∧ (∀ j task', tasks self !! j = Some task' → j < i → id task' ≠ task_id)
         ∧ tasks self' !! i
           = Some {| id := id task; description := description task; completed := true |}
         ∧ (∀ j, j ≠ i → tasks self' !! j = tasks self !! j)
         ∧ length (tasks self') = length (tasks self))
  ∧ (found = false → tasks self' = tasks self ∧ fs' = fs).
Proof.
  unfold mark_complete.
  destruct (first_with_id task_id (tasks self)) as [[i task]|] eqn:E.
  - split_and!.
    + split; [intros _ | done]. apply first_with_id_is_Some. by eexists.
    + intros _. apply first_with_id_Some in E as (Hi & Hid & Hfirst).
      exists i, task. simpl. split_and!; [done.. | | | ].
      * apply list_lookup_insert_eq. by eapply lookup_lt_Some.
      * intros j Hj. by apply list_lookup_insert_ne.
      * apply length_insert.
    + done.
  - split_and!; [|done..].
    split; [done|]. intros H%first_with_id_is_Some. rewrite E in H. by destruct H.
Qed.

(** C3.  [delete_task] returns (it does not raise), and returns [True]
    exactly when some task has the id.  It then removes the first such task
    and keeps every other task, unmodified and in order; when it returns
    [False] the list (and the file) is unchanged. *)
Theorem delete_task_first_match (task_id : Z) (self : TodoApp) (fs : FS) :
  ∃ found self' fs',
    delete_task task_id self fs = Some (found, self', fs')
    ∧ (found = true ↔ ∃ task, task ∈ tasks self ∧ id task = task_id)
    ∧ (found = true →
         ∃ i task,
           tasks self !! i = Some task ∧ id task = task_id
           ∧ (∀ j task', tasks self !! j = Some task' → j < i → id task' ≠ task_id)
           ∧ tasks self' = take i (tasks self) ++ drop (S i) (tasks self))
    ∧ (found = false → tasks self' = tasks self ∧ fs' = fs).
Proof.
  unfold delete_task.
  destruct (first_with_id task_id (tasks self)) as [[i task]|] eqn:E.
  - rewrite (remove_first_with_id _ _ _ _ E). simpl.
    eexists _, _, _. split; [done|]. split_and!.
    + split; [intros _ | done]. apply first_with_id_is_Some. by eexists.
    + intros _. apply first_with_id_Some in E as (Hi & Hid & Hfirst).
      exists i, task. by split_and!.
    + done.
  - eexists _, _, _. split; [done|]. split_and!; [|done..].
    split; [done|]. intros H%first_with_id_is_Some. rewrite E in H. by destruct H.
Qed.

(** C4.  [clear_completed] replaces the list by the subsequence of the tasks
    that are not completed: the survivors are unchanged and in their order,
    every completed task is gone and every other task is kept. *)
Theorem clear_completed_keeps_open (self : TodoApp) (fs : FS) :
  let self' := (clear_completed self fs).1 in
  tasks self' = filter (λ task, completed task = false) (tasks self)
  ∧ sublist (tasks self') (tasks self)
  ∧ (∀ task, task ∈ tasks self' ↔ task ∈ tasks self ∧ completed task = false)
  ∧ (∀ i task, tasks self !! i = Some task → completed task = false →
       tasks self' !! length (filter (λ task, completed task = false) (take i (tasks self)))
       = Some task).
Proof.
  unfold clear_completed; simpl. split_and!.
  - done.
  - apply sublist_filter.
  - intros task. rewrite list_elem_of_filter. tauto.
  - intros i task. apply lookup_filter_open.
Qed.

(** C7.  Ids are not unique.  From the empty store opened on a file that
    does not exist, [add_task], [add_task], [delete_task(1)], [add_task]
    leaves a list of two tasks that both have id 2: the id of the new task
    is the length of the list plus one, and the list got shorter. *)
Theorem ids_collide_after_delete (name d1 d2 d3 : list N) :
  ∃ app0 app3 fs3,
    __init__ name ∅ = Some app0
    ∧ tasks app0 = []
    ∧ (let '(app1, fs1) := add_task d1 app0 ∅ in
       let '(app2, fs2) := add_task d2 app1 fs1 in
       delete_task 1 app2 fs2 = Some (true, app3, fs3))
    ∧ (let app4 := (add_task d3 app3 fs3).1 in
       tasks app4 = [ {| id := 2; description := d2; completed := false |};
                      {| id := 2; description := d3; completed := false |} ]
       ∧ ∃ i j task task',
           i ≠ j ∧ tasks app4 !! i = Some task ∧ tasks app4 !! j = Some task'
           ∧ id task = id task').
Proof.
  eexists _, _, _. split_and!.
  - unfold __init__, load_tasks. rewrite lookup_empty. reflexivity.
  - reflexivity.
  - unfold add_task, delete_task, first_with_id; simpl.
    rewrite decide_True by done. reflexivity.
  - simpl. split; [reflexivity|].
    by exists 0, 1, {| id := 2; description := d2; completed := false |},
                    {| id := 2; description := d3; completed := false |}.
Qed.

(** The slot map of an operation accounts for the whole new list: a slot of
    the new list holds a dict of the old list, or the dict [add_task]
    appended. *)
Lemma slot_after_covers (o : operation) (self self' : TodoApp) (fs fs' : FS) (j : nat) :
  run_operation o self fs = Some (self', fs') →
  j < length (tasks self') →
  (∃ i, i < length (tasks self) ∧ slot_after o (tasks self) i = Some j)
  ∨ (∃ description, o = AddTask description ∧ j = length (tasks self)).
Proof.
  destruct o as [d|task_id|task_id|]; simpl.
  - intros [= <- <-]. simpl. rewrite length_app. simpl. intros Hj.
    destruct (decide (j < length (tasks self))); [left; by exists j|].
    right. exists d. split; [done | lia].
  - unfold mark_complete.
    destruct (first_with_id task_id (tasks self)) as [[k t]|];
      intros [= <- <-]; simpl; [rewrite length_insert|]; intros Hj; left; by exists j.
  - unfold delete_task.
    destruct (first_with_id task_id (tasks self)) as [[k t]|] eqn:E.
    + rewrite (remove_first_with_id _ _ _ _ E). simpl. intros [= <- <-]. simpl.
      apply first_with_id_Some in E as (Hk%lookup_lt_Some & _).
      rewrite length_app, length_take, length_drop. intros Hj. left.
      destruct (decide (j < k)).
      * exists j. split; [lia|]. by rewrite decide_True.
      * exists (S j). split; [lia|].
        rewrite decide_False, decide_False by lia. done.
    + simpl. intros [= <- <-] Hj. left. by exists j.
  - intros [= <- <-]. simpl. intros Hj. left.
    destruct (lookup_lt_is_Some_2 _ _ Hj) as [t Ht].
    apply list_elem_of_lookup_2 in Ht as Hin.
    apply list_elem_of_filter in Hin as [Hc Hin].
    revert Ht. generalize (tasks self) j. clear -Hc.
    induction l as [|y l IH]; intros j; [by rewrite filter_nil|].
    destruct (completed y) eqn:Ey.
    + rewrite filter_cons_False by (by rewrite Ey). intros (i & Hi & Hs)%IH.
      exists (S i). split; [simpl; lia|]. simpl in *.
      destruct (l !! i) as [t'|]; [|done]. destruct (completed t'); [done|].
      by rewrite filter_cons_False by (by rewrite Ey).
    + rewrite filter_cons_True by done. destruct j as [|j]; simpl.
      * intros _. exists 0. split; [lia|]. simpl. by rewrite Ey.
      * intros (i & Hi & Hs)%IH. exists (S i). split; [lia|]. simpl in *.
        destruct (l !! i) as [t'|]; [|done]. destruct (completed t'); [done|].
        rewrite filter_cons_True by done. simpl. congruence.
Qed.

(** C8.  No operation of the store turns [completed] from true to false.
    Every operation returns, and a task that is in the list before and after
    it (the dict at slot [i] before is the dict at slot [j] after) keeps its
    id and description and, when it was completed, is still completed. *)
Theorem completed_never_reverts (o : operation) (self : TodoApp) (fs : FS) :
  ∃ self' fs',
    run_operation o self fs = Some (self', fs')
    ∧ ∀ i j task,
        tasks self !! i = Some task → slot_after o (tasks self) i = Some j →
        ∃ task',
          tasks self' !! j = Some task'
          ∧ id task' = id task ∧ description task' = description task
          ∧ (completed task = true → completed task' = true).
Proof.
  destruct o as [d|task_id|task_id|]; simpl.
  - eexists _, _. split; [done|]. intros i j task Hi [= <-].
    exists task. split_and!; [|done..]. simpl. by apply lookup_app_l_Some.
  - unfold mark_complete.
    destruct (first_with_id task_id (tasks self)) as [[k t]|] eqn:E;
      (eexists _, _; split; [done|]); intros i j task Hi [= <-]; simpl.
    + apply first_with_id_Some in E as (Hk & _).
      destruct (decide (k = i)) as [->|Hne].
      * exists (set_completed t).
        rewrite list_lookup_insert_eq by (by eapply lookup_lt_Some).
        assert (t = task) as -> by congruence. done.
      * exists task. by rewrite list_lookup_insert_ne.
    + by exists task.
  - unfold delete_task.
    destruct (first_with_id task_id (tasks self)) as [[k t]|] eqn:E.
    + rewrite (remove_first_with_id _ _ _ _ E). simpl.
      eexists _, _; split; [done|]. intros i j task Hi. simpl.
      apply first_with_id_Some in E as (Hk%lookup_lt_Some & _).
      destruct (decide (i < k)); [|destruct (decide (i = k)); [done|]];
        intros [= <-]; exists task; (split; [|done]).
      * rewrite lookup_app_l by (rewrite length_take; lia).
        by rewrite lookup_take_lt.
      * rewrite lookup_app_r by (rewrite length_take; lia).
        rewrite length_take, lookup_drop, <- Hi. f_equal. lia.
    + eexists _, _; split; [done|]. intros i j task Hi [= <-]. by exists task.
  - eexists _, _; split; [done|]. intros i j task Hi. rewrite Hi.
    destruct (completed task) eqn:Ec; [done|]. intros [= <-].
    exists task. split; [|done]. simpl.
    by apply lookup_filter_open.
Qed.

(** Completing the first task with the id does not move the first match. *)
Lemma first_with_id_set_completed (task_id : Z) (l : list Task) (i : nat) (task : Task) :
  first_with_id task_id l = Some (i, task) →
  first_with_id task_id (<[i := set_completed task]> l) = Some (i, set_completed task).
Proof.
  intros (Hi & Hid & Hfirst)%first_with_id_Some.
  apply first_with_id_Some. split_and!.
  - apply list_lookup_insert_eq. by eapply lookup_lt_Some.
  - done.
  - intros j task' Hj Hlt. rewrite list_lookup_insert_ne in Hj by lia. eauto.
Qed.

(** C10.  [mark_complete] is idempotent: when some task has the id, the call
    returns [True], and a second call right after it returns [True] again
    and leaves the store (and the file) as the first call left it. *)
Theorem mark_complete_idempotent (task_id : Z) (self : TodoApp) (fs : FS) :
  (∃ task, task ∈ tasks self ∧ id task = task_id) →
  ∃ self1 fs1,
    mark_complete task_id self fs = (true, self1, fs1)
    ∧ mark_complete task_id self1 fs1 = (true, self1, fs1).
Proof.
  intros [[i task] E]%first_with_id_is_Some.
  unfold mark_complete at 1. rewrite E.
  eexists _, _. split; [reflexivity|].
  unfold mark_complete. simpl.
  rewrite (first_with_id_set_completed _ _ _ _ E).
  unfold with_tasks, save_tasks; simpl.
  rewrite list_insert_insert_eq, insert_insert_eq. reflexivity.
Qed.

(** An instance: a store with one open task, id 7. *)
Lemma mark_complete_idempotent_witness :
  ∃ self1 fs1,
    mark_complete 7 {| filename := u "tasks.json";
                       tasks := [mkTask 7 (u "water the plants") false] |} ∅
      = (true, self1, fs1)
    ∧ mark_complete 7 self1 fs1 = (true, self1, fs1).
Proof.
  apply (mark_complete_idempotent 7).
  exists (mkTask 7 (u "water the plants") false).
  split; [apply list_elem_of_here | reflexivity].
Defined.

(** ** The command interpreter *)

(** C9, as amended.  The interpreter lower-cases the whole trimmed line, not
    only its first token: when the trimmed, lower-cased line starts with
    ['a '], one task is added, and its description is that lower-cased line
    without its first two characters. *)
Theorem add_command_lowercases
    (unicode_lower : list N → list N) (unicode_int : list N → option Z)
    (line : list N) (app : TodoApp) (fs : FS) :
  let command := lower unicode_lower (strip line) in
  startswith (u "a ") command = true →
  turn unicode_lower unicode_int line app fs
    = (true, [u "Task added"],
       (add_task (drop 2 command) app fs).1, (add_task (drop 2 command) app fs).2)
  ∧ tasks (turn unicode_lower unicode_int line app fs).1.2
    = tasks app ++ [{| id := Z.of_nat (length (tasks app)) + 1;
                       description := drop 2 command;
                       completed := false |}].
Proof.
  intros command Hstart. unfold turn. fold command.
  rewrite decide_False; [rewrite Hstart; done|].
  intros ->. discriminate.
Qed.

(** An instance: the line [  A Call Bob ] adds the description [call bob]. *)
Lemma add_command_lowercases_witness :
  turn (λ s, s) (λ _, None) (u "  A Call Bob ") (mkTodoApp (u "tasks.json") []) ∅
    = (true, [u "Task added"],
       (add_task (u "call bob") (mkTodoApp (u "tasks.json") []) ∅).1,
       (add_task (u "call bob") (mkTodoApp (u "tasks.json") []) ∅).2)
  ∧ tasks (turn (λ s, s) (λ _, None) (u "  A Call Bob ")
             (mkTodoApp (u "tasks.json") []) ∅).1.2
    = [] ++ [{| id := Z.of_nat 0 + 1; description := u "call bob"; completed := false |}].
Proof.
  apply (add_command_lowercases (λ s, s) (λ _, None) (u "  A Call Bob ")
           (mkTodoApp (u "tasks.json") []) ∅).
  reflexivity.
Defined.

(** C9, as stated, fails: the description is not the text as typed.  For
    the line [a Buy Milk] the text after the first two characters is
    [Buy Milk], and the task added has the description [buy milk],
    whatever [str.lower] does on text that is not ASCII. *)
Lemma add_command_changes_case :
  drop 2 (strip (u "a Buy Milk")) = u "Buy Milk"
  ∧ startswith (u "a ") (strip (u "a Buy Milk")) = true
  ∧ (∀ (unicode_lower : list N → list N) (unicode_int : list N → option Z),
       tasks (turn unicode_lower unicode_int (u "a Buy Milk")
                (mkTodoApp (u "tasks.json") []) ∅).1.2
       = [ {| id := 1; description := u "buy milk"; completed := false |} ])
  ∧ u "buy milk" ≠ u "Buy Milk".
Proof.
  split_and!; [reflexivity | reflexivity | intros; reflexivity | discriminate].
Qed.

(** ** Persistence *)

(** The scanner matches [json.loads] on these texts: an unclosed array, a
    trailing comma, a number with a leading zero, text after the value, a
    control character inside a string and the empty text are all rejected;
    whitespace around the value and escapes inside strings are accepted. *)
Example json_loads_rejects :
  json_loads (u "[1, 2") = None
  ∧ json_loads (u "[1,]") = None
  ∧ json_loads (u "01") = None
  ∧ json_loads (u "[] x") = None
  ∧ json_loads [QUOTE; 9%N; QUOTE] = None
  ∧ json_loads [] = None
  ∧ json_loads (u "not json") = None.
Proof. by vm_compute. Qed.

Example json_loads_accepts :
  json_loads (u " [1, -20 , [ ], {}, true, null] ")
    = Some (VList [VInt 1; VInt (-20); VList []; VDict []; VBool true; VNone])
  ∧ json_loads (QUOTE :: u "a\n\u00e9\ud83d\ude00" ++ [QUOTE])
    = Some (VStr [97; 10; 233; 0x1F600])%N.
Proof. by vm_compute. Qed.

(** Text that is json but not a list of task dicts is not replaced by the
    empty list: [load_tasks] returns the value it decoded. *)
Example load_tasks_other_json :
  load_tasks (u "tasks.json") {[ u "tasks.json" := u "[1, 2]" ]} = VList [VInt 1; VInt 2].
Proof. by vm_compute. Qed.

(** C5, as amended.  Saving and then opening a store on the same path gives
    the saved list back, task by task, when no description has a high
    surrogate directly followed by a low surrogate (descriptions being
    Python strings: code points below 0x110000). *)
Theorem reload_after_save (self : TodoApp) (fs : FS) :
  Forall (λ task, plain (description task)) (tasks self) →
  __init__ (filename self) (save_tasks self fs) = Some self
  ∧ load_tasks (filename self) (save_tasks self fs) = value_of_tasks (tasks self)
  ∧ ∀ app, __init__ (filename self) (save_tasks self fs) = Some app →
      length (list_tasks app) = length (list_tasks self)
      ∧ ∀ i, list_tasks app !! i = list_tasks self !! i.
Proof.
  intros Hplain.
  assert (load_tasks (filename self) (save_tasks self fs) = value_of_tasks (tasks self)) as Hload.
  { unfold load_tasks, save_tasks. rewrite lookup_insert_eq.
    by rewrite (json_loads_dumps _ Hplain). }
  assert (__init__ (filename self) (save_tasks self fs) = Some self) as Hinit.
  { unfold __init__. rewrite Hload, tasks_of_value_of_tasks. by destruct self. }
  split_and!; [done..|].
  intros app Happ. rewrite Hinit in Happ. by injection Happ as <-.
Qed.

(** An instance: descriptions with a non-ASCII letter, a character above
    U+FFFF, and a low surrogate followed by a high one. *)
Lemma reload_after_save_witness :
  let self := {| filename := u "tasks.json";
                 tasks := [ mkTask 1 [99; 97; 102; 233]%N false;
                            mkTask 2 (u "say " ++ [0x1F600; 0xDE00; 0xD83D]%N) true ] |} in
  __init__ (filename self) (save_tasks self ∅) = Some self
  ∧ load_tasks (filename self) (save_tasks self ∅) = value_of_tasks (tasks self)
  ∧ ∀ app, __init__ (filename self) (save_tasks self ∅) = Some app →
      length (list_tasks app) = length (list_tasks self)
      ∧ ∀ i, list_tasks app !! i = list_tasks self !! i.
Proof.
  apply (reload_after_save
           {| filename := u "tasks.json";
              tasks := [ mkTask 1 [99; 97; 102; 233]%N false;
                         mkTask 2 (u "say " ++ [0x1F600; 0xDE00; 0xD83D]%N) true ] |} ∅).
  repeat (constructor; try done).
Defined.

(** C5, as stated, fails.  A description made of a high surrogate followed
    by a low surrogate is written as two [\uXXXX] escapes, and [json.load]
    reads two such escapes as one character: the reloaded description has
    one code point where the saved one has two. *)
Lemma reload_joins_surrogate_pair :
  let self := {| filename := u "tasks.json";
                 tasks := [ mkTask 1 [0xD83D; 0xDE00]%N false ] |} in
  is_str [0xD83D; 0xDE00]%N
  ∧ save_tasks self ∅ !! u "tasks.json"
    = Some ([91; 123; QUOTE]%N ++ u "id" ++ [QUOTE]%N ++ u ": 1, "
              ++ [QUOTE]%N ++ u "description" ++ [QUOTE]%N ++ u ": "
              ++ [QUOTE]%N ++ u "\ud83d\ude00" ++ [QUOTE]%N ++ u ", "
              ++ [QUOTE]%N ++ u "completed" ++ [QUOTE]%N ++ u ": false}]")
  ∧ __init__ (filename self) (save_tasks self ∅)
    = Some {| filename := u "tasks.json"; tasks := [ mkTask 1 [0x1F600]%N false ] |}
  ∧ [ mkTask 1 [0x1F600]%N false ] ≠ tasks self.
Proof.
  split_and!.
  - repeat (constructor; try done).
  - by vm_compute.
  - by vm_compute.
  - discriminate.
Qed.




(** ** Further properties *)

(** The scenario of the test suite, run on the model: after adding [Task 1] and
    [Task 2] the list has two open tasks with ids 1 and 2; completing the
    first listed task gives the statistics 2 and 1; [clear_completed] then
    leaves the single task [Task 2]. *)
Theorem two_tasks_scenario :
  let app0 := {| filename := u "test_tasks.json"; tasks := [] |} in
  let '(app1, fs1) := add_task (u "Task 1") app0 ∅ in
  let '(app2, fs2) := add_task (u "Task 2") app1 fs1 in
  list_tasks app2 = [ mkTask 1 (u "Task 1") false; mkTask 2 (u "Task 2") false ]
  ∧ let '(found, app3, fs3) := mark_complete 1 app2 fs2 in
    found = true
    ∧ get_stats app3 = {| total := 2; completed_count := 1 |}
    ∧ let '(app4, fs4) := clear_completed app3 fs3 in
      list_tasks app4 = [ mkTask 2 (u "Task 2") false ]
      ∧ __init__ (u "test_tasks.json") fs4 = Some app4.
Proof. by vm_compute. Qed.

Lemma startswith_take (prefix s : list N) :
  startswith prefix s = true ↔ take (length prefix) s = prefix.
Proof. unfold startswith. apply bool_decide_eq_true. Qed.

(** X1.  A [c] or [d] command whose argument [int] rejects prints the
    invalid-id message and leaves the store and the file as they were. *)
Theorem invalid_id_changes_nothing
    (unicode_lower : list N → list N) (unicode_int : list N → option Z)
    (line : list N) (app : TodoApp) (fs : FS) :
  let command := lower unicode_lower (strip line) in
  startswith (u "c ") command = true ∨ startswith (u "d ") command = true →
  py_int unicode_int (drop 2 command) = None →
  turn unicode_lower unicode_int line app fs = (true, [u "Invalid task ID"], app, fs).
Proof.
  intros command Hstart Hint. unfold turn. fold command. rewrite Hint.
  assert (take 2 command = u "c " ∨ take 2 command = u "d ") as Htake.
  { destruct Hstart as [H|H]; apply startswith_take in H; auto. }
  rewrite decide_False by (intros E; rewrite E in Htake; by destruct Htake).
  replace (startswith (u "a ") command) with false
    by (symmetry; apply bool_decide_eq_false; intros E; simpl in E;
        rewrite E in Htake; by destruct Htake).
  rewrite decide_False by (intros E; rewrite E in Htake; by destruct Htake).
  destruct (startswith (u "c ") command) eqn:Ec; [done|].
  destruct Hstart as [? | ->]; done.
Qed.

(** An instance: [d 1_], a numeral with a trailing underscore. *)
Lemma invalid_id_changes_nothing_witness :
  turn (λ s, s) (λ _, None) (u "d 1_") (mkTodoApp (u "tasks.json") [mkTask 1 (u "x") false]) ∅
  = (true, [u "Invalid task ID"], mkTodoApp (u "tasks.json") [mkTask 1 (u "x") false], ∅).
Proof.
  apply (invalid_id_changes_nothing (λ s, s) (λ _, None) (u "d 1_")); [by right | reflexivity].
Defined.

(** ** Sequences of operations and the file of the store *)

Lemma run_operation_effect (o : operation) (self : TodoApp) (fs : FS) :
  ∃ self' fs',
    run_operation o self fs = Some (self', fs')
    ∧ filename self' = filename self
    ∧ ((self' = self ∧ fs' = fs) ∨ fs' = save_tasks self' fs).
Proof.
  destruct o as [d|task_id|task_id|]; simpl.
  - eexists _, _. split; [done|]. split; [done|]. by right.
  - unfold mark_complete. destruct (first_with_id task_id (tasks self)) as [[i t]|];
      eexists _, _; (split; [done|]); (split; [done|]); [by right | by left].
  - unfold delete_task. destruct (first_with_id task_id (tasks self)) as [[i t]|] eqn:E.
    + rewrite (remove_first_with_id _ _ _ _ E). simpl.
      eexists _, _. split; [done|]. split; [done|]. by right.
    + eexists _, _. split; [done|]. split; [done|]. by left.
  - eexists _, _. split; [done|]. split; [done|]. by right.
Qed.

Lemma in_sync_reopens (self : TodoApp) (fs : FS) :
  in_sync self fs → Forall (λ task, plain (description task)) (tasks self) →
  __init__ (filename self) fs = Some self.
Proof.
  intros [Hfile|Hinit] Hplain; [|done].
  unfold __init__, load_tasks. rewrite Hfile, (json_loads_dumps _ Hplain).
  rewrite tasks_of_value_of_tasks. by destruct self.
Qed.

Lemma run_operation_in_sync (o : operation) (self self' : TodoApp) (fs fs' : FS) :
  run_operation o self fs = Some (self', fs') → in_sync self fs → in_sync self' fs'.
Proof.
  intros Hrun Hsync.
  destruct (run_operation_effect o self fs) as (self1 & fs1 & Hrun1 & Hname & Heff).
  rewrite Hrun in Hrun1. injection Hrun1 as <- <-.
  destruct Heff as [[-> ->]| ->]; [done|]. left. apply lookup_insert_eq.
Qed.

Lemma run_operations_effect (os : list operation) (self : TodoApp) (fs : FS) :
  ∃ self' fs',
    run_operations os self fs = Some (self', fs')
    ∧ filename self' = filename self
    ∧ (in_sync self fs → in_sync self' fs').
Proof.
  revert self fs. induction os as [|o os IH]; intros self fs.
  - by exists self, fs.
  - destruct (run_operation_effect o self fs) as (self1 & fs1 & Hrun1 & Hname & _).
    destruct (IH self1 fs1) as (self' & fs' & Hrun & Hname' & Hsync).
    exists self', fs'. simpl. rewrite Hrun1. simpl. split_and!; [done|congruence|].
    intros H. eapply Hsync, run_operation_in_sync; eauto.
Qed.

Lemma reopen_after_operations_aux (name : list N) (fs : FS) (app : TodoApp) (os : list operation) :
  __init__ name fs = Some app →
  ∃ app' fs',
    run_operations os app fs = Some (app', fs')
    ∧ (Forall (λ task, plain (description task)) (tasks app') →
       __init__ name fs' = Some app').
Proof.
  intros Hinit.
  assert (filename app = name) as Hname.
  { unfold __init__ in Hinit. destruct (tasks_of_value _); [|done]. by injection Hinit as <-. }
  destruct (run_operations_effect os app fs) as (app' & fs' & Hrun & Hname' & Hsync).
  exists app', fs'. split; [done|]. intros Hplain.
  rewrite <- Hname, <- Hname'. apply in_sync_reopens; [|done].
  apply Hsync. right. by rewrite Hname.
Qed.

(** X3.  Durability.  After any sequence of operations on a store that was
    opened on a path, opening a store on that path again gives the same
    store, provided no description of the final list has a high surrogate
    directly before a low one. *)
Theorem reopen_after_operations (name : list N) (fs : FS) (app : TodoApp) (os : list operation) :
  __init__ name fs = Some app →
  ∃ app' fs',
    run_operations os app fs = Some (app', fs')
    ∧ (Forall (λ task, plain (description task)) (tasks app') →
       __init__ name fs' = Some app').
Proof. apply reopen_after_operations_aux. Qed.

(** ** Ids, counts and how the operations compose *)

Lemma positional_first_with_id (l : list Task) (i : nat) (task : Task) :
  positional l → l !! i = Some task →
  first_with_id (Z.of_nat i + 1) l = Some (i, task).
Proof.
  intros Hpos Hi. apply first_with_id_Some. split_and!; [done|by apply Hpos|].
  intros j task' Hj Hlt. rewrite (Hpos j task' Hj). lia.
Qed.

Lemma reopen_after_operations_witness :
  ∃ app' fs',
    run_operations
      [AddTask (u "a"); AddTask (u "b"); MarkComplete 1; ClearCompleted; DeleteTask 5]
      (mkTodoApp (u "tasks.json") []) ∅ = Some (app', fs')
    ∧ (Forall (λ task, plain (description task)) (tasks app') →
       __init__ (u "tasks.json") fs' = Some app').
Proof.
  apply (reopen_after_operations (u "tasks.json") ∅ (mkTodoApp (u "tasks.json") [])).
  reflexivity.
Defined.

Lemma positional_no_id (l : list Task) (task_id : Z) :
  positional l → (task_id < 1 ∨ Z.of_nat (length l) < task_id)%Z →
  first_with_id task_id l = None.
Proof.
  intros Hpos Hout. apply first_with_id_None. intros task [i Hi]%list_elem_of_lookup.
  rewrite (Hpos i task Hi). apply lookup_lt_Some in Hi. lia.
Qed.

Lemma positional_app (l : list Task) (d : list N) :
  positional l →
  positional (l ++ [{| id := Z.of_nat (length l) + 1; description := d; completed := false |}]).
Proof.
  intros Hpos i task [Hi|[Hlen Hi]]%lookup_app_Some; [by apply Hpos|].
  destruct (i - length l) as [|k] eqn:Ek; [|done].
  injection Hi as <-. simpl. f_equal. lia.
Qed.

Lemma positional_insert (l : list Task) (i : nat) (task : Task) :
  positional l → l !! i = Some task → positional (<[i := set_completed task]> l).
Proof.
  intros Hpos Hi j task' Hj.
  destruct (decide (i = j)) as [->|Hne].
  - rewrite list_lookup_insert_eq in Hj by (by eapply lookup_lt_Some).
    injection Hj as <-. simpl. by apply Hpos.
  - rewrite list_lookup_insert_ne in Hj by done. by apply Hpos.
Qed.

Lemma positional_NoDup (l : list Task) : positional l → NoDup (id <$> l).
Proof.
  intros Hpos. apply NoDup_alt. intros i j z Hi Hj.
  rewrite list_lookup_fmap in Hi, Hj.
  destruct (l !! i) as [ti|] eqn:Ei; [|done]. destruct (l !! j) as [tj|] eqn:Ej; [|done].
  simpl in *. apply Hpos in Ei, Ej. simplify_eq. lia.
Qed.

(** X4.  Without [delete_task] and [clear_completed] ids stay unique: when
    the ids are the positions, any sequence of [add_task] and
    [mark_complete] returns and leaves ids that are the positions, so no two
    tasks share an id. *)
Theorem ids_unique_without_removal (os : list operation) (self : TodoApp) (fs : FS) :
  Forall adds_or_completes os → positional (tasks self) →
  ∃ self' fs',
    run_operations os self fs = Some (self', fs')
    ∧ positional (tasks self')
    ∧ NoDup (id <$> tasks self').
Proof.
  intros Hos. revert self fs. induction Hos as [|o os Ho Hos IH]; intros self fs Hpos.
  - exists self, fs. split_and!; [done..|]. by apply positional_NoDup.
  - assert (∃ self1 fs1, run_operation o self fs = Some (self1, fs1) ∧ positional (tasks self1))
      as (self1 & fs1 & Hrun & Hpos1).
    { destruct o as [d|task_id| |]; [| |done..]; simpl.
      - eexists _, _. split; [done|]. by apply positional_app.
      - unfold mark_complete.
        destruct (first_with_id task_id (tasks self)) as [[i t]|] eqn:E;
          eexists _, _; (split; [done|]); [|done].
        apply first_with_id_Some in E as (Hi & _). by apply positional_insert. }
    destruct (IH self1 fs1 Hpos1) as (self' & fs' & Hrun' & H).
    exists self', fs'. simpl. rewrite Hrun. done.
Qed.

Lemma ids_unique_without_removal_witness :
  ∃ self' fs',
    run_operations [AddTask (u "a"); MarkComplete 1; AddTask (u "b")]
      (mkTodoApp (u "tasks.json") []) ∅ = Some (self', fs')
    ∧ positional (tasks self')
    ∧ NoDup (id <$> tasks self').
Proof.
  apply (ids_unique_without_removal
           [AddTask (u "a"); MarkComplete 1; AddTask (u "b")]
           (mkTodoApp (u "tasks.json") []) ∅).
  - repeat constructor.
  - intros i task H. discriminate H.
Defined.

(** X5.  When the ids are the positions, the id [i + 1] addresses the task
    at index [i]: [mark_complete] completes exactly that slot and
    [delete_task] removes exactly that slot, both returning [True]. *)
Theorem id_addresses_position (self : TodoApp) (fs : FS) (i : nat) (task : Task) :
  positional (tasks self) → tasks self !! i = Some task →
  (∃ self' fs',
     mark_complete (Z.of_nat i + 1) self fs = (true, self', fs')
     ∧ tasks self' = <[i := set_completed task]> (tasks self))
  ∧ (∃ self' fs',
       delete_task (Z.of_nat i + 1) self fs = Some (true, self', fs')
       ∧ tasks self' = take i (tasks self) ++ drop (S i) (tasks self)).
Proof.
  intros Hpos Hi. pose proof (positional_first_with_id _ _ _ Hpos Hi) as E. split.
  - unfold mark_complete. rewrite E. by eexists _, _.
  - unfold delete_task. rewrite E, (remove_first_with_id _ _ _ _ E). by eexists _, _.
Qed.

Lemma id_addresses_position_witness :
  let self := mkTodoApp (u "tasks.json") [mkTask 1 (u "a") false; mkTask 2 (u "b") false] in
  (∃ self' fs',
     mark_complete (Z.of_nat 1 + 1) self ∅ = (true, self', fs')
     ∧ tasks self' = <[1%nat := set_completed (mkTask 2 (u "b") false)]> (tasks self))
  ∧ (∃ self' fs',
       delete_task (Z.of_nat 1 + 1) self ∅ = Some (true, self', fs')
       ∧ tasks self' = take 1 (tasks self) ++ drop 2 (tasks self)).
Proof.
  apply (id_addresses_position
           (mkTodoApp (u "tasks.json") [mkTask 1 (u "a") false; mkTask 2 (u "b") false])
           ∅ 1 (mkTask 2 (u "b") false)).
  - intros [|[|i]] task H; simpl in H; [injection H as <-; reflexivity.. | discriminate H].
  - reflexivity.
Defined.

(** X6.  [delete_task] with the id [add_task] has just assigned returns
    [True] and restores the length of the list; when no older task has that
    id it removes the new task and restores the list.  (When an older task
    has it, the older task is the one removed.) *)
Theorem delete_task_undoes_add_task (d : list N) (self : TodoApp) (fs : FS) :
  let new_id := (Z.of_nat (length (tasks self)) + 1)%Z in
  let '(self1, fs1) := add_task d self fs in
  ∃ self2 fs2,
    delete_task new_id self1 fs1 = Some (true, self2, fs2)
    ∧ length (tasks self2) = length (tasks self)
    ∧ ((∀ task, task ∈ tasks self → id task ≠ new_id) → tasks self2 = tasks self).
Proof.
  simpl. unfold delete_task. simpl.
  set (new := {| id := Z.of_nat (length (tasks self)) + 1; description := d; completed := false |}).
  destruct (first_with_id (Z.of_nat (length (tasks self)) + 1) (tasks self ++ [new]))
    as [[i t]|] eqn:E.
  - rewrite (remove_first_with_id _ _ _ _ E). simpl. eexists _, _. split; [done|].
    apply first_with_id_Some in E as (Hi & Hid & Hfirst).
    pose proof (lookup_lt_Some _ _ _ Hi) as Hlt. rewrite length_app in Hlt. simpl in Hlt.
    split.
    + simpl. rewrite length_app, length_take, length_drop, length_app. simpl. lia.
    + intros Hfresh. simpl. destruct (decide (i = length (tasks self))) as [->|Hne].
      * rewrite take_app_length, drop_app_ge by lia.
        replace (S (length (tasks self)) - length (tasks self)) with 1 by lia.
        simpl. by rewrite app_nil_r.
      * exfalso. rewrite lookup_app_l in Hi by lia.
        apply (Hfresh t); [by eapply list_elem_of_lookup_2 | done].
  - exfalso. apply first_with_id_None with (task := new) in E; [done|].
    apply elem_of_app. right. apply list_elem_of_here.
Qed.

Lemma filter_open_open (l : list Task) :
  filter (λ task, completed task = false) (filter (λ task, completed task = false) l)
  = filter (λ task, completed task = false) l.
Proof.
  induction l as [|t l IH]; [done|]. destruct (completed t) eqn:Et.
  - by rewrite filter_cons_False by (by rewrite Et).
  - rewrite filter_cons_True by done. rewrite filter_cons_True by done. by rewrite IH.
Qed.

Lemma filter_completed_open (l : list Task) :
  filter (λ task, completed task = true) (filter (λ task, completed task = false) l) = [].
Proof.
  induction l as [|t l IH]; [done|]. destruct (completed t) eqn:Et.
  - by rewrite filter_cons_False by (by rewrite Et).
  - rewrite filter_cons_True by done. by rewrite filter_cons_False by (by rewrite Et).
Qed.

Lemma length_filter_completed (l : list Task) :
  length (filter (λ task, completed task = true) l)
    + length (filter (λ task, completed task = false) l) = length l.
Proof.
  induction l as [|t l IH]; [done|]. destruct (completed t) eqn:Et.
  - rewrite filter_cons_True, filter_cons_False by (by rewrite ?Et). simpl. lia.
  - rewrite filter_cons_False, filter_cons_True by (by rewrite ?Et). simpl. lia.
Qed.

(** X7.  [clear_completed] is idempotent: a second call changes neither the
    list nor the file. *)
Theorem clear_completed_idempotent (self : TodoApp) (fs : FS) :
  let '(self1, fs1) := clear_completed self fs in
  clear_completed self1 fs1 = (self1, fs1).
Proof.
  unfold clear_completed, save_tasks, with_tasks. simpl.
  by rewrite filter_open_open, insert_insert_eq.
Qed.

(** X8.  After [clear_completed], [get_stats] reports no completed task
    and a total lowered by the number of tasks that were completed (which is
    never more than the total). *)
Theorem get_stats_after_clear_completed (self : TodoApp) (fs : FS) :
  let self' := (clear_completed self fs).1 in
  completed_count (get_stats self') = 0
  ∧ total (get_stats self') + completed_count (get_stats self) = total (get_stats self)
  ∧ completed_count (get_stats self) ≤ total (get_stats self).
Proof.
  unfold clear_completed, get_stats. simpl.
  pose proof (length_filter_completed (tasks self)).
  rewrite filter_completed_open. split_and!; simpl; lia.
Qed.

Lemma length_filter_completed_insert (l : list Task) (i : nat) (task : Task) :
  l !! i = Some task →
  length (filter (λ task, completed task = true) (<[i := set_completed task]> l))
  = length (filter (λ task, completed task = true) l) + (if completed task then 0 else 1).
Proof.
  intros Hi. rewrite <- (take_drop_middle _ _ _ Hi) at 2.
  rewrite insert_take_drop by (by eapply lookup_lt_Some).
  rewrite !filter_app, !length_app.
  rewrite (filter_cons_True _ (set_completed task)) by done.
  destruct (completed task) eqn:Et.
  - rewrite filter_cons_True by done. simpl. lia.
  - rewrite filter_cons_False by (by rewrite Et). simpl. lia.
Qed.

(** X9.  [mark_complete] keeps the total of [get_stats]; the completed
    count grows by one exactly when a task has the id and the first such
    task was open, and is unchanged otherwise. *)
Theorem get_stats_after_mark_complete (task_id : Z) (self : TodoApp) (fs : FS) :
  let '(found, self', fs') := mark_complete task_id self fs in
  total (get_stats self') = total (get_stats self)
  ∧ completed_count (get_stats self')
    = completed_count (get_stats self)
      + match first_with_id task_id (tasks self) with
        | Some (_, task) => if completed task then 0 else 1
        | None => 0
        end.
Proof.
  unfold mark_complete, get_stats.
  destruct (first_with_id task_id (tasks self)) as [[i task]|] eqn:E; simpl; [|lia].
  apply first_with_id_Some in E as (Hi & _).
  split; [apply length_insert|]. by apply length_filter_completed_insert.
Qed.

(** X10.  [delete_task] returns, with [True] exactly when some task has the
    id; when it found the id, the total and the
    number of tasks with that id each drop by exactly one (other tasks with
    the same id stay), and the completed count drops by one exactly when the
    removed task was completed.  When it did not, all counts are unchanged. *)
Theorem delete_task_removes_one (task_id : Z) (self : TodoApp) (fs : FS) :
  ∃ found self' fs',
    delete_task task_id self fs = Some (found, self', fs')
    ∧ (found = true ↔ ∃ task, task ∈ tasks self ∧ id task = task_id)
    ∧ total (get_stats self') + (if found then 1 else 0) = total (get_stats self)
    ∧ length (filter (λ task, id task = task_id) (tasks self')) + (if found then 1 else 0)
      = length (filter (λ task, id task = task_id) (tasks self))
    ∧ completed_count (get_stats self')
        + match first_with_id task_id (tasks self) with
          | Some (_, task) => if completed task then 1 else 0
          | None => 0
          end
      = completed_count (get_stats self).
Proof.
  unfold delete_task, get_stats.
  destruct (first_with_id task_id (tasks self)) as [[i task]|] eqn:E.
  - rewrite (remove_first_with_id _ _ _ _ E). simpl. eexists _, _, _. split; [done|].
    split; [split; [intros _; by apply first_with_id_is_Some; rewrite E | done]|].
    apply first_with_id_Some in E as (Hi & Hid & _). simpl.
    pose proof (take_drop_middle _ _ _ Hi) as Hsplit.
    set (pre := take i (tasks self)) in *. set (post := drop (S i) (tasks self)) in *.
    rewrite <- Hsplit.
    rewrite !filter_app, !length_app. rewrite (filter_cons_True (λ task, id task = task_id)) by done.
    split_and!.
    + simpl. lia.
    + simpl. lia.
    + destruct (completed task) eqn:Et.
      * rewrite filter_cons_True by done. simpl. lia.
      * rewrite filter_cons_False by (by rewrite Et). lia.
  - simpl. eexists _, _, _. split; [done|].
    split; [|simpl; lia].
    split; [done|]. intros H%first_with_id_is_Some. rewrite E in H. by destruct H.
Qed.

(** X11.  Completing a task and clearing is deleting it and clearing:
    [mark_complete] and [delete_task] return the same flag for an id, and
    [clear_completed] after either leaves the same store and the same
    file. *)
Theorem complete_then_clear_is_delete_then_clear (task_id : Z) (self : TodoApp) (fs : FS) :
  ∃ found self1 fs1 self2 fs2,
    mark_complete task_id self fs = (found, self1, fs1)
    ∧ delete_task task_id self fs = Some (found, self2, fs2)
    ∧ clear_completed self1 fs1 = clear_completed self2 fs2.
Proof.
  unfold mark_complete, delete_task.
  destruct (first_with_id task_id (tasks self)) as [[i task]|] eqn:E.
  - rewrite (remove_first_with_id _ _ _ _ E). simpl. eexists _, _, _, _, _.
    split; [done|]. split; [done|].
    apply first_with_id_Some in E as (Hi & _).
    unfold clear_completed, save_tasks, with_tasks. simpl.
    assert (filter (λ task, completed task = false) (<[i := set_completed task]> (tasks self))
            = filter (λ task, completed task = false) (take i (tasks self) ++ drop (S i) (tasks self)))
      as ->.
    { rewrite insert_take_drop by (by eapply lookup_lt_Some).
      rewrite !filter_app. by rewrite filter_cons_False by done. }
    by rewrite !insert_insert_eq.
  - eexists _, _, _, _, _. done.
Qed.

(** X12.  Ids stay positive: when every id is at least 1, every sequence
    of operations returns and leaves ids that are at least 1. *)
Theorem ids_stay_positive (os : list operation) (self : TodoApp) (fs : FS) :
  Forall (λ task, (1 ≤ id task)%Z) (tasks self) →
  ∃ self' fs',
    run_operations os self fs = Some (self', fs')
    ∧ Forall (λ task, (1 ≤ id task)%Z) (tasks self').
Proof.
  revert self fs. induction os as [|o os IH]; intros self fs Hpos; [by exists self, fs|].
  assert (∃ self1 fs1, run_operation o self fs = Some (self1, fs1)
                       ∧ Forall (λ task, (1 ≤ id task)%Z) (tasks self1))
    as (self1 & fs1 & Hrun & Hpos1).
  { destruct o as [d|task_id|task_id|]; simpl.
    - eexists _, _. split; [done|]. simpl. apply Forall_app. split; [done|].
      apply Forall_singleton. simpl. lia.
    - unfold mark_complete.
      destruct (first_with_id task_id (tasks self)) as [[i t]|] eqn:E;
        eexists _, _; (split; [done|]); [|done].
      simpl. apply Forall_insert; [done|].
      apply first_with_id_Some in E as (Hi & _).
      by apply (Forall_lookup_1 _ _ _ _ Hpos Hi).
    - unfold delete_task.
      destruct (first_with_id task_id (tasks self)) as [[i t]|] eqn:E.
      + rewrite (remove_first_with_id _ _ _ _ E). simpl. eexists _, _. split; [done|].
        simpl. apply Forall_app. split; [by apply Forall_take | by apply Forall_drop].
      + simpl. by eexists _, _.
    - eexists _, _. split; [done|]. simpl. rewrite Forall_forall in Hpos.
      apply Forall_forall. intros t [_ Ht]%list_elem_of_filter. by apply Hpos. }
  destruct (IH self1 fs1 Hpos1) as (self' & fs' & Hrun' & H).
  exists self', fs'. simpl. rewrite Hrun. done.
Qed.

Lemma ids_stay_positive_witness :
  ∃ self' fs',
    run_operations [DeleteTask 1; AddTask (u "x"); ClearCompleted]
      (mkTodoApp (u "tasks.json") [mkTask 1 (u "a") true; mkTask 2 (u "b") false]) ∅
    = Some (self', fs')
    ∧ Forall (λ task, (1 ≤ id task)%Z) (tasks self').
Proof.
  apply (ids_stay_positive [DeleteTask 1; AddTask (u "x"); ClearCompleted]
           (mkTodoApp (u "tasks.json") [mkTask 1 (u "a") true; mkTask 2 (u "b") false]) ∅).
  repeat constructor; simpl; lia.
Defined.

(** ** The loop of the interpreter *)

Lemma delete_task_returns (task_id : Z) (self : TodoApp) (fs : FS) :
  ∃ found self' fs', delete_task task_id self fs = Some (found, self', fs')
                     ∧ run_operation (DeleteTask task_id) self fs = Some (self', fs').
Proof.
  simpl. unfold delete_task.
  destruct (first_with_id task_id (tasks self)) as [[i t]|] eqn:E.
  - rewrite (remove_first_with_id _ _ _ _ E). simpl. by eexists _, _, _.
  - by eexists _, _, _.
Qed.

Lemma run_operations_app (os1 os2 : list operation) (self : TodoApp) (fs : FS) :
  run_operations (os1 ++ os2) self fs
  = run_operations os1 self fs ≫= (λ s, run_operations os2 s.1 s.2).
Proof.
  revert self fs. induction os1 as [|o os1 IH]; intros self fs; [done|].
  simpl. destruct (run_operation o self fs) as [[self1 fs1]|]; [|done]. simpl. apply IH.
Qed.

Section InterpreterFacts.

Variable unicode_lower : list N → list N.
Variable unicode_int : list N → option Z.

Local Ltac one_operation o := exists [o]; split; [simpl; lia|].
Local Ltac no_operation := exists []; split; [simpl; lia | reflexivity].

(** What one turn does to the store is what at most one operation does. *)
Lemma turn_operations (line : list N) (app : TodoApp) (fs : FS) :
  ∃ os, length os ≤ 1
        ∧ run_operations os app fs = Some ((turn unicode_lower unicode_int line app fs).1.2, (turn unicode_lower unicode_int line app fs).2).
Proof.
  unfold turn. set (command := lower unicode_lower (strip line)).
  destruct (decide (command = u "h")); [no_operation|].
  destruct (startswith (u "a ") command).
  { one_operation (AddTask (drop 2 command)). simpl.
    by destruct (add_task (drop 2 command) app fs). }
  destruct (decide (command = u "l")); [no_operation|].
  destruct (startswith (u "c ") command).
  { destruct (py_int unicode_int (drop 2 command)) as [task_id|]; [|no_operation].
    one_operation (MarkComplete task_id). simpl.
    by destruct (mark_complete task_id app fs) as [[found app'] fs']. }
  destruct (startswith (u "d ") command).
  { destruct (py_int unicode_int (drop 2 command)) as [task_id|]; [|no_operation].
    destruct (delete_task_returns task_id app fs) as (found & app' & fs' & Hdel & Hrun).
    one_operation (DeleteTask task_id).
    cbn [run_operations]. rewrite Hrun, Hdel. done. }
  destruct (decide (command = u "x")).
  { one_operation ClearCompleted. simpl. by destruct (clear_completed app fs). }
  destruct (decide (command = u "s")); [no_operation|].
  destruct (decide (command = u "q")); no_operation.
Qed.

Lemma turn_again_quits (line : list N) (app : TodoApp) (fs : FS) :
  (turn unicode_lower unicode_int line app fs).1.1.1 = negb (bool_decide (quits unicode_lower line)).
Proof.
  unfold quits, turn. set (command := lower unicode_lower (strip line)).
  destruct (decide (command = u "q")) as [Hq|Hq].
  - rewrite bool_decide_eq_true_2 by done. by rewrite Hq.
  - rewrite bool_decide_eq_false_2 by done.
    repeat (case_match; simpl; try done).
Qed.

(** Where nothing fails, the loop returns when some line is a [q] command,
    and ends in [EOFError] when none is. *)
Lemma loop_ending_quits (lines : list (list N)) (app : TodoApp) (fs : FS) :
  ((loop unicode_lower unicode_int lines app fs).1.1.1 = Returned
     ↔ Exists (quits unicode_lower) lines)
  ∧ ((loop unicode_lower unicode_int lines app fs).1.1.1 = RaisedEOFError
     ↔ Forall (λ line, ¬ quits unicode_lower line) lines).
Proof.
  revert app fs. induction lines as [|line lines IH]; intros app fs.
  - simpl. split; (split; [done|]); [by intros ?%Exists_nil | done].
  - cbn [loop].
    pose proof (turn_again_quits line app fs) as Hagain.
    destruct (turn unicode_lower unicode_int line app fs) as [[[again printed] app1] fs1].
    simpl in Hagain. subst again.
    destruct (decide (quits unicode_lower line)) as [Hq|Hq].
    + rewrite bool_decide_eq_true_2 by done. simpl. split.
      * split; [intros _; by left | done].
      * split; [done|]. by intros [? _]%Forall_cons.
    + rewrite bool_decide_eq_false_2 by done. simpl.
      specialize (IH app1 fs1).
      destruct (loop unicode_lower unicode_int lines app1 fs1) as [[[e printed'] app2] fs2].
      simpl in *. rewrite Exists_cons, Forall_cons. destruct IH as [IH1 IH2]. split.
      * rewrite IH1. tauto.
      * rewrite IH2. tauto.
Qed.

(** X15.  Nothing typed after a [q] command is read: the lines after it
    change neither the output nor the final store and files. *)
Theorem loop_ignores_after_quit (before after : list (list N)) (line : list N)
    (app : TodoApp) (fs : FS) :
  quits unicode_lower line →
  loop unicode_lower unicode_int (before ++ line :: after) app fs
  = loop unicode_lower unicode_int (before ++ [line]) app fs.
Proof.
  intros Hq. revert app fs. induction before as [|l before IH]; intros app fs.
  - rewrite !app_nil_l. cbn [loop].
    pose proof (turn_again_quits line app fs) as Hagain.
    destruct (turn unicode_lower unicode_int line app fs) as [[[again printed] app1] fs1].
    simpl in Hagain. subst again. by rewrite bool_decide_eq_true_2 by done.
  - rewrite <- !app_comm_cons. cbn [loop].
    destruct (turn unicode_lower unicode_int l app fs) as [[[again printed] app1] fs1].
    destruct again; [|done]. by rewrite IH.
Qed.

(** X16.  Only the commands [a], [c], [d] and [x] change anything: for
    every other line ([h], [l], [s], [q], an unknown command) the store and
    the file system after the turn are the ones before. *)
Theorem turn_read_only (line : list N) (app : TodoApp) (fs : FS) :
  let command := lower unicode_lower (strip line) in
  startswith (u "a ") command = false →
  startswith (u "c ") command = false →
  startswith (u "d ") command = false →
  command ≠ u "x" →
  (turn unicode_lower unicode_int line app fs).1.2 = app
  ∧ (turn unicode_lower unicode_int line app fs).2 = fs.
Proof.
  intros command Ha Hc Hd Hx. unfold turn. fold command. rewrite Ha, Hc, Hd.
  rewrite (decide_False (P := command = u "x")) by done.
  by repeat case_match.
Qed.

Lemma loop_operations (lines : list (list N)) (app : TodoApp) (fs : FS) :
  ∃ os, run_operations os app fs
        = Some ((loop unicode_lower unicode_int lines app fs).1.2,
                (loop unicode_lower unicode_int lines app fs).2).
Proof.
  revert app fs. induction lines as [|line lines IH]; intros app fs; [by exists []|].
  cbn [loop].
  destruct (turn_operations line app fs) as (os1 & _ & H1).
  destruct (turn unicode_lower unicode_int line app fs) as [[[again printed] app1] fs1].
  simpl in H1. destruct again; [|by exists os1].
  destruct (IH app1 fs1) as (os2 & H2).
  destruct (loop unicode_lower unicode_int lines app1 fs1) as [[[e printed'] app2] fs2].
  simpl in *. exists (os1 ++ os2). by rewrite run_operations_app, H1.
Qed.

(** X17.  A session resumes where the last one stopped: when [main] ended
    (on [q] or at the end of input) with some store and file system,
    [main] run again on that file system starts its loop with that store. *)
Theorem main_resumes (lines lines' : list (list N)) (fs fs' : FS) (app' : TodoApp)
    (e : ending) (printed : list (list N)) :
  main unicode_lower unicode_int lines fs = Some (e, printed, app', fs') →
  Forall (λ task, plain (description task)) (tasks app') →
  main unicode_lower unicode_int lines' fs'
  = Some (loop unicode_lower unicode_int lines' app' fs').
Proof.
  unfold main. intros Hmain Hplain.
  destruct (__init__ (u "tasks.json") fs) as [app|] eqn:Hinit; [|done].
  simpl in Hmain. injection Hmain as Hloop.
  destruct (loop_operations lines app fs) as (os & Hos). rewrite Hloop in Hos. simpl in Hos.
  destruct (reopen_after_operations_aux _ _ _ os Hinit) as (app1 & fs1 & Hrun & Hre).
  rewrite Hos in Hrun. injection Hrun as <- <-.
  by rewrite (Hre Hplain).
Qed.

End InterpreterFacts.

Lemma main_resumes_witness :
  main (λ s, s) (λ _, None) [u "c 1"]
    (save_tasks (mkTodoApp (u "tasks.json") [mkTask 1 (u "milk") false]) ∅)
  = Some (loop (λ s, s) (λ _, None) [u "c 1"]
            (mkTodoApp (u "tasks.json") [mkTask 1 (u "milk") false])
            (save_tasks (mkTodoApp (u "tasks.json") [mkTask 1 (u "milk") false]) ∅)).
Proof.
  apply (main_resumes (λ s, s) (λ _, None) [u "a milk"; u "q"] [u "c 1"] ∅
           (save_tasks (mkTodoApp (u "tasks.json") [mkTask 1 (u "milk") false]) ∅)
           (mkTodoApp (u "tasks.json") [mkTask 1 (u "milk") false])
           Returned
           (loop (λ s, s) (λ _, None) [u "a milk"; u "q"] (mkTodoApp (u "tasks.json") []) ∅).1.1.2).
  - vm_compute. reflexivity.
  - repeat constructor.
Defined.

Lemma loop_ignores_after_quit_witness :
  loop (λ s, s) (λ _, None) ([u "a x"] ++ u " Q " :: [u "a y"; u "l"])
    (mkTodoApp (u "tasks.json") []) ∅
  = loop (λ s, s) (λ _, None) ([u "a x"] ++ [u " Q "]) (mkTodoApp (u "tasks.json") []) ∅.
Proof.
  apply (loop_ignores_after_quit (λ s, s) (λ _, None) [u "a x"] [u "a y"; u "l"] (u " Q ")).
  reflexivity.
Defined.

Lemma turn_read_only_witness :
  let app := mkTodoApp (u "tasks.json") [mkTask 1 (u "a") false] in
  (turn (λ s, s) (λ _, None) (u " L ") app ∅).1.2 = app
  ∧ (turn (λ s, s) (λ _, None) (u " L ") app ∅).2 = ∅.
Proof.
  apply (turn_read_only (λ s, s) (λ _, None) (u " L ")
           (mkTodoApp (u "tasks.json") [mkTask 1 (u "a") false]) ∅);
    [reflexivity | reflexivity | reflexivity | discriminate].
Defined.

(** ** What is written and what the commands accept *)

Section AsciiOutput.
Local Open Scope N_scope.

Lemma hex_digit_printable (n : N) : n < 16 → printable (hex_digit n).
Proof. unfold hex_digit, printable. intros Hn. case_match; bool_to_Prop; lia. Qed.

Lemma u_escape_printable (n : N) : Forall printable (u_escape n).
Proof.
  unfold u_escape. repeat apply Forall_cons_2; try apply Forall_nil_2;
    try (apply hex_digit_printable, N.mod_lt; lia); unfold printable, BACKSLASH; lia.
Qed.

Lemma encode_char_printable (c : N) : Forall printable (encode_char c).
Proof.
  unfold encode_char.
  repeat (case_match; [repeat apply Forall_cons_2; try apply Forall_nil_2;
                       unfold printable, BACKSLASH, QUOTE; lia|]).
  case_match.
  { bool_to_Prop. apply Forall_singleton. unfold printable. lia. }
  case_match; [apply u_escape_printable|].
  apply Forall_app. split; apply u_escape_printable.
Qed.

Lemma encode_str_printable (s : list N) : Forall printable (encode_str s).
Proof.
  unfold encode_str. apply Forall_cons_2; [unfold printable, QUOTE; lia|].
  apply Forall_app. split; [|apply Forall_singleton; unfold printable, QUOTE; lia].
  unfold encode_chars. apply Forall_bind, Forall_forall. intros c _. apply encode_char_printable.
Qed.

Lemma uint_text_printable (d : Decimal.uint) : Forall printable (uint_text d).
Proof. induction d; simpl; constructor; try done; unfold printable; lia. Qed.

Lemma int_text_printable (z : Z) : Forall printable (int_text z).
Proof.
  unfold int_text. destruct z; try apply uint_text_printable.
  apply Forall_cons_2; [unfold printable; lia | apply uint_text_printable].
Qed.

Lemma u_printable (s : string) :
  forallb (λ c, (32 <=? c) && (c <=? 126)) (u s) = true → Forall printable (u s).
Proof.
  intros H%Is_true_true_2. rewrite forallb_True in H.
  eapply Forall_impl; [exact H|]. intros c Hc. apply Is_true_true in Hc.
  bool_to_Prop. by split.
Qed.

Lemma encode_field_printable (key text : list N) :
  Forall printable text → Forall printable (encode_field key text).
Proof.
  intros Htext. unfold encode_field. apply Forall_app. split; [apply encode_str_printable|].
  apply Forall_app. split; [by apply u_printable | done].
Qed.

Lemma join_comma_printable (chunks : list (list N)) :
  Forall (Forall printable) chunks → Forall printable (join_comma chunks).
Proof.
  induction 1 as [|chunk [|chunk' more] Hchunk Hmore IH]; [done..|].
  change (join_comma (chunk :: chunk' :: more))
    with (chunk ++ u ", " ++ join_comma (chunk' :: more)).
  repeat (apply Forall_app; split); [done | by apply u_printable | done].
Qed.

Lemma encode_task_printable (task : Task) : Forall printable (encode_task task).
Proof.
  unfold encode_task. apply Forall_app. split; [by apply u_printable|].
  apply Forall_app. split; [|by apply u_printable].
  apply join_comma_printable.
  apply Forall_cons_2; [apply encode_field_printable, int_text_printable|].
  apply Forall_cons_2; [apply encode_field_printable, encode_str_printable|].
  apply Forall_cons_2; [|apply Forall_nil_2].
  apply encode_field_printable. destruct (completed task); by apply u_printable.
Qed.

(** X18.  The file [save_tasks] writes holds printable ASCII characters
    only, whatever the descriptions are. *)
Theorem saved_file_is_ascii (self : TodoApp) (fs : FS) :
  ∃ content,
    save_tasks self fs !! filename self = Some content
    ∧ Forall printable content.
Proof.
  exists (json_dumps (tasks self)). split; [apply lookup_insert_eq|].
  unfold json_dumps. apply Forall_app. split; [by apply u_printable|].
  apply Forall_app. split; [|by apply u_printable].
  apply join_comma_printable, Forall_fmap, Forall_forall. intros task _.
  apply encode_task_printable.
Qed.

End AsciiOutput.

Section AddCommand.

Lemma lstrip_head (s : list N) (c : N) : head (lstrip s) = Some c → isspace c = false.
Proof.
  induction s as [|c' s IH]; [done|]. simpl. destruct (isspace c') eqn:E; [done|].
  simpl. by intros [= <-].
Qed.

Lemma lstrip_suffix (s : list N) : lstrip s `suffix_of` s.
Proof.
  induction s as [|c s IH]; [done|]. simpl. destruct (isspace c); [|done].
  by apply suffix_cons_r.
Qed.

Lemma strip_last (s : list N) (c : N) : last (strip s) = Some c → isspace c = false.
Proof. unfold strip. rewrite last_reverse. apply lstrip_head. Qed.

Lemma is_ascii_Forall (s : list N) : is_ascii s = true ↔ Forall (λ c, (c < 128)%N) s.
Proof.
  unfold is_ascii. rewrite <- Is_true_true, forallb_True. apply Forall_proper; [|done].
  intros c. by rewrite Is_true_true, N.ltb_lt.
Qed.

Lemma strip_ascii (s : list N) : is_ascii s = true → is_ascii (strip s) = true.
Proof.
  rewrite !is_ascii_Forall. intros H. unfold strip.
  apply Forall_reverse.
  destruct (lstrip_suffix (reverse (lstrip s))) as [k1 E1].
  destruct (lstrip_suffix s) as [k2 E2].
  assert (Forall (λ c, (c < 128)%N) (reverse (lstrip s))) as H1.
  { apply Forall_reverse. rewrite E2 in H. by apply Forall_app in H as [_ ?]. }
  rewrite E1 in H1. by apply Forall_app in H1 as [_ ?].
Qed.

(** X19.  The [a] command never adds an empty description: for an ASCII
    line whose command starts with ['a '], the text after the first two
    characters is not empty (a line [a] followed by blanks only is trimmed
    to [a], which is not an add command). *)
Theorem add_command_never_empty
    (unicode_lower : list N → list N) (line : list N) :
  is_ascii line = true →
  startswith (u "a ") (lower unicode_lower (strip line)) = true →
  drop 2 (lower unicode_lower (strip line)) ≠ [].
Proof.
  intros Hascii Hstart Hempty.
  apply startswith_take in Hstart.
  pose proof (take_drop 2 (lower unicode_lower (strip line))) as Hsplit.
  change (length (u "a ")) with 2 in Hstart. rewrite Hstart, Hempty in Hsplit.
  unfold lower in Hsplit. rewrite (strip_ascii _ Hascii) in Hsplit.
  pose proof (strip_last line) as Hlast.
  destruct (strip line) as [|c1 [|c2 [|c3 t]]]; try done.
  injection Hsplit as _ Hc2.
  assert (c2 = 32%N) as ->.
  { revert Hc2. unfold ascii_lower. case_match; bool_to_Prop; lia. }
  by specialize (Hlast 32%N eq_refl).
Qed.

End AddCommand.

Lemma add_command_never_empty_witness :
  drop 2 (lower (λ s, s) (strip (u " A  x "))) ≠ [].
Proof.
  apply (add_command_never_empty (λ s, s) (u " A  x ")); reflexivity.
Defined.

Section Reports.
Variable unicode_lower : list N → list N.
Variable unicode_int : list N → option Z.

(** X20.  A [c] or [d] command with an id that [int] accepts and no task
    has prints [Task not found] and changes neither the store nor the
    files. *)
Theorem unknown_id_reports_not_found (line : list N) (task_id : Z) (app : TodoApp) (fs : FS) :
  let command := lower unicode_lower (strip line) in
  startswith (u "c ") command = true ∨ startswith (u "d ") command = true →
  py_int unicode_int (drop 2 command) = Some task_id →
  (∀ task, task ∈ tasks app → id task ≠ task_id) →
  turn unicode_lower unicode_int line app fs = (true, [u "Task not found"], app, fs).
Proof.
  intros command Hstart Hint Hnone. unfold turn. fold command. rewrite Hint.
  apply first_with_id_None in Hnone.
  assert (take 2 command = u "c " ∨ take 2 command = u "d ") as Htake.
  { destruct Hstart as [H|H]; apply startswith_take in H; auto. }
  rewrite decide_False by (intros E; rewrite E in Htake; by destruct Htake).
  replace (startswith (u "a ") command) with false
    by (symmetry; apply bool_decide_eq_false; intros E; simpl in E;
        rewrite E in Htake; by destruct Htake).
  rewrite decide_False by (intros E; rewrite E in Htake; by destruct Htake).
  unfold mark_complete, delete_task. rewrite Hnone.
  destruct (startswith (u "c ") command) eqn:Ec; [done|].
  destruct Hstart as [? | ->]; done.
Qed.
End Reports.

Lemma unknown_id_reports_not_found_witness :
  let app := mkTodoApp (u "tasks.json") [mkTask 1 (u "a") false] in
  turn (λ s, s) (λ _, None) (u "c 7") app ∅ = (true, [u "Task not found"], app, ∅).
Proof.
  apply (unknown_id_reports_not_found (λ s, s) (λ _, None) (u "c 7") 7
           (mkTodoApp (u "tasks.json") [mkTask 1 (u "a") false]) ∅).
  - by left.
  - reflexivity.
  - intros task Hin. inversion Hin as [|? ? ? Hin']; subst; [discriminate | inversion Hin'].
Defined.

(* ===================================================================== *)
(** * Part III: the program in an environment that can fail              *)
(* ===================================================================== *)

(** ** The scanner with the recursion check *)

Section WithinFacts.

Local Arguments startswith : simpl never.
Local Arguments u : simpl never.
Local Arguments match_number : simpl never.
Local Arguments scanstring : simpl never.
Local Arguments dict_of_pairs : simpl never.
Local Arguments skip_ws : simpl never.
Local Arguments scan_once : simpl never.
Local Arguments array_items : simpl never.
Local Arguments object_items : simpl never.




(** More opening brackets than there is room for raise [RecursionError],
    whatever follows them. *)
Lemma scan_once_within_deep (room : nat) :
  ∀ budget t, 2 * room < budget →
    Fallible.scan_once_within room budget (repeat 91%N (S room) ++ t)
    = Fallible.Raises Fallible.RecursionError.
Proof.
  induction room as [|room IH]; intros budget t Hb.
  - destruct budget as [|budget]; [lia|]. reflexivity.
  - destruct budget as [|[|budget]]; [lia..|].
    change (repeat 91%N (S (S room)) ++ t) with (91%N :: 91%N :: (repeat 91%N room ++ t)).
    cbn [Fallible.scan_once_within].
    change (91 =? 123)%N with false. change (91 =? 91)%N with true. cbv iota.
    rewrite (skip_ws_cons 91) by done. change (91 =? 93)%N with false. cbv iota.
    cbn [Fallible.array_items_within].
    change (91%N :: repeat 91%N room ++ t) with (repeat 91%N (S room) ++ t).
    rewrite IH by lia. reflexivity.
Qed.

Lemma json_loads_within_deep (room : nat) (t : list N) :
  Fallible.json_loads room (repeat 91%N (S room) ++ t) = Fallible.Raises Fallible.RecursionError.
Proof.
  unfold Fallible.json_loads.
  change (repeat 91%N (S room) ++ t) with (91%N :: (repeat 91%N room ++ t)).
  assert (∀ t, startswith [0xFEFF%N] (91%N :: t) = false) as -> by done.
  cbv zeta. rewrite (skip_ws_cons 91) by done.
  change (91%N :: (repeat 91%N room ++ t)) with (repeat 91%N (S room) ++ t).
  rewrite scan_once_within_deep; [done|].
  unfold budget_for. rewrite length_app, repeat_length. lia.
Qed.


Local Arguments encode_chars : simpl never.
Local Arguments int_text : simpl never.

(** A value that is neither an array nor an object is scanned without
    entering one. *)
Lemma scan_once_within_atom (room n : nat) (s : list N) (v : value) (r : list N) :
  scan_once n s = Scanned v r →
  match v with VList _ | VDict _ => False | _ => True end →
  Fallible.scan_once_within room n s = Fallible.Returns (Scanned v r).
Proof.
  intros Hscan Hv. destruct n as [|n]; [done|]. destruct s as [|c rest]; [done|].
  cbn [Fallible.scan_once_within].
  destruct (c =? 123)%N eqn:E123.
  { exfalso. apply N.eqb_eq in E123 as ->.
    unfold scan_once in Hscan; fold scan_once array_items object_items in Hscan.
    change (123 =? QUOTE)%N with false in Hscan. change (123 =? 123)%N with true in Hscan.
    cbv iota in Hscan. repeat case_match; simplify_eq; done. }
  destruct (c =? 91)%N eqn:E91; [|by rewrite Hscan].
  exfalso. apply N.eqb_eq in E91 as ->.
  unfold scan_once in Hscan; fold scan_once array_items object_items in Hscan.
  change (91 =? QUOTE)%N with false in Hscan. change (91 =? 123)%N with false in Hscan.
  change (91 =? 91)%N with true in Hscan.
  cbv iota in Hscan. repeat case_match; simplify_eq; done.
Qed.

Lemma object_items_within_field (room n : nat) (key text after : list N) (v : value) :
  plain key →
  skip_ws (text ++ after) = text ++ after →
  scan_once n (text ++ after) = Scanned v after →
  match v with VList _ | VDict _ => False | _ => True end →
  Fallible.object_items_within room (S n) (encode_field key text ++ after)
  = match skip_ws after with
    | c :: r =>
        if (c =? 125)%N then Fallible.Returns (Scanned [(key, v)] r)
        else if (c =? 44)%N then
          match Fallible.object_items_within room n (skip_ws r) with
          | Fallible.Returns (Scanned kvs r') => Fallible.Returns (Scanned ((key, v) :: kvs) r')
          | other => other
          end
        else Fallible.Returns Malformed
    | [] => Fallible.Returns Malformed
    end.
Proof.
  intros [Hstr Hfree] Hws Hscan Hv.
  rewrite encode_field_cons. cbn [Fallible.object_items_within].
  change (QUOTE =? QUOTE)%N with true. cbv iota.
  rewrite (scanstring_encode_chars key _ Hstr Hfree).
  rewrite (skip_ws_cons 58) by done. change (58 =? 58)%N with true. cbv iota.
  rewrite skip_ws_space, Hws.
  by rewrite (scan_once_within_atom room n _ v after Hscan Hv).
Qed.

Lemma scan_once_within_brace_field (room n : nat) (key text t : list N) :
  Fallible.scan_once_within (S room) (S n) (123%N :: encode_field key text ++ t)
  = match Fallible.object_items_within room n (encode_field key text ++ t) with
    | Fallible.Returns (Scanned pairs r) => Fallible.Returns (Scanned (VDict (dict_of_pairs pairs)) r)
    | Fallible.Returns Malformed => Fallible.Returns Malformed
    | Fallible.Returns Exhausted => Fallible.Returns Exhausted
    | Fallible.Raises e => Fallible.Raises e
    end.
Proof.
  rewrite encode_field_cons. cbn [Fallible.scan_once_within].
  change (123 =? 123)%N with true. cbv iota.
  rewrite (skip_ws_cons QUOTE) by done. by change (QUOTE =? 125)%N with false.
Qed.

(** A task dict is read back as written when there is room for one
    object. *)
Lemma scan_once_within_task (room n : nat) (task : Task) (t : list N) :
  plain (description task) →
  Fallible.scan_once_within (S room) (5 + n) (encode_task task ++ t)
  = Fallible.Returns (Scanned (value_of_task task) t).
Proof.
  intros Hd. rewrite encode_task_app.
  change (5 + n)%nat with (S (S (S (S (S n))))).
  rewrite scan_once_within_brace_field.
  rewrite (object_items_within_field _ _ _ _ _ (VInt (id task)));
    [|by apply plain_ascii|apply skip_ws_int_text|apply scan_once_int|done].
  rewrite (skip_ws_cons 44) by done.
  change (44 =? 125)%N with false. change (44 =? 44)%N with true.
  cbv iota. rewrite skip_ws_space, skip_ws_encode_field.
  rewrite (object_items_within_field _ _ _ _ _ (VStr (description task)));
    [|by apply plain_ascii|done|by apply scan_once_str|done].
  rewrite (skip_ws_cons 44) by done.
  change (44 =? 125)%N with false. change (44 =? 44)%N with true.
  cbv iota. rewrite skip_ws_space, skip_ws_encode_field.
  rewrite (object_items_within_field _ _ _ _ _ (VBool (completed task)));
    [|by apply plain_ascii|by destruct (completed task)|by apply scan_once_bool|done].
  rewrite (skip_ws_cons 125) by done. change (125 =? 125)%N with true. cbv iota.
  reflexivity.
Qed.

Lemma array_items_within_tasks (room n : nat) (task : Task) (l : list Task) (t : list N) :
  Forall (λ task, plain (description task)) (task :: l) →
  Fallible.array_items_within (S room) (6 + length l + n)
    (join_comma (encode_task <$> task :: l) ++ 93%N :: t)
  = Fallible.Returns (Scanned (value_of_task <$> task :: l) t).
Proof.
  revert task. induction l as [|task' l IH]; intros task [Hd Hl]%Forall_cons.
  - change (join_comma (encode_task <$> [task])) with (encode_task task).
    change (6 + length [] + n)%nat with (S (5 + n)).
    cbn [Fallible.array_items_within]. rewrite scan_once_within_task by done.
    by rewrite (skip_ws_cons 93).
  - rewrite join_comma_cons, <- app_assoc. cbn [app length].
    replace (6 + S (length l) + n)%nat with (S (5 + (1 + length l + n))) by lia.
    cbn [Fallible.array_items_within]. rewrite scan_once_within_task by done.
    rewrite (skip_ws_cons 44) by done.
    change (44 =? 93)%N with false. change (44 =? 44)%N with true. cbv iota.
    rewrite skip_ws_space.
    destruct (join_comma_head task' l (93%N :: t)) as [t'' E].
    rewrite E, (skip_ws_cons 123), <- E by done.
    replace (5 + (1 + length l + n))%nat with (6 + length l + n)%nat by lia.
    by rewrite IH.
Qed.

(** A saved task list is loaded back wherever the scanner has room for an
    array of objects: the recursion limit is not met by the files the
    program writes. *)
Lemma json_loads_within_dumps (room : nat) (l : list Task) :
  Forall (λ task, plain (description task)) l →
  Fallible.json_loads (S (S room)) (json_dumps l) = Fallible.Returns (value_of_tasks l).
Proof.
  intros Hl. unfold Fallible.json_loads. rewrite json_dumps_cons.
  assert (∀ t, startswith [0xFEFF%N] (91%N :: t) = false) as -> by done.
  cbv zeta. rewrite (skip_ws_cons 91) by done.
  destruct l as [|task l]; [done|].
  pose proof (length_join_comma (task :: l)) as Hlen.
  destruct (join_comma_head task l [93%N]) as [t' E].
  unfold budget_for. cbn [length] in *. rewrite length_app in *. cbn [length] in *.
  set (k := (2 * S (length (join_comma (encode_task <$> task :: l)) + 1))%nat).
  cbn [Fallible.scan_once_within].
  change (91 =? 123)%N with false. change (91 =? 91)%N with true. cbv iota.
  rewrite E, (skip_ws_cons 123) by done. change (123 =? 93)%N with false. cbv iota.
  rewrite <- E.
  replace k with (6 + length l + (k - 6 - length l))%nat by lia.
  by rewrite array_items_within_tasks.
Qed.

End WithinFacts.

(** ** The operations where the write can fail *)

Section FallibleStore.

Variable env : Fallible.Env.

(** The four methods, as the state they leave and what they return. *)
Lemma add_task_outcome (d : list N) (out : list (list N)) (self : TodoApp) (fs : FS) :
  Fallible.add_task env d (out, self, fs)
  = match Fallible.write_error env (filename self) with
    | None => ((out, (add_task d self fs).1, (add_task d self fs).2), Fallible.Returns tt)
    | Some e => ((out, (add_task d self fs).1, fs), Fallible.Raises e)
    end.
Proof.
  unfold Fallible.add_task, add_task, save_tasks, mbind, Fallible.M_bind. simpl.
  by destruct (Fallible.write_error env (filename self)).
Qed.

Lemma mark_complete_outcome (task_id : Z) (out : list (list N)) (self : TodoApp) (fs : FS) :
  Fallible.mark_complete env task_id (out, self, fs)
  = let '(found, self', fs') := mark_complete task_id self fs in
    if found then
      match Fallible.write_error env (filename self) with
      | None => ((out, self', fs'), Fallible.Returns true)
      | Some e => ((out, self', fs), Fallible.Raises e)
      end
    else ((out, self, fs), Fallible.Returns false).
Proof.
  unfold Fallible.mark_complete, mark_complete, save_tasks, mbind, Fallible.M_bind. simpl.
  destruct (first_with_id task_id (tasks self)) as [[i task]|]; [|done]. simpl.
  by destruct (Fallible.write_error env (filename self)).
Qed.

Lemma delete_task_outcome (task_id : Z) (out : list (list N)) (self : TodoApp) (fs : FS) :
  ∃ found self' fs',
    delete_task task_id self fs = Some (found, self', fs')
    ∧ Fallible.delete_task env task_id (out, self, fs)
      = if found then
          match Fallible.write_error env (filename self) with
          | None => ((out, self', fs'), Fallible.Returns true)
          | Some e => ((out, self', fs), Fallible.Raises e)
          end
        else ((out, self, fs), Fallible.Returns false).
Proof.
  unfold Fallible.delete_task, delete_task, save_tasks, mbind, Fallible.M_bind. simpl.
  destruct (first_with_id task_id (tasks self)) as [[i task]|] eqn:E.
  - rewrite (remove_first_with_id _ _ _ _ E). simpl.
    eexists true, _, _. split; [done|]. simpl.
    by destruct (Fallible.write_error env (filename self)).
  - by eexists false, _, _.
Qed.

Lemma clear_completed_outcome (out : list (list N)) (self : TodoApp) (fs : FS) :
  Fallible.clear_completed env (out, self, fs)
  = match Fallible.write_error env (filename self) with
    | None => ((out, (clear_completed self fs).1, (clear_completed self fs).2), Fallible.Returns tt)
    | Some e => ((out, (clear_completed self fs).1, fs), Fallible.Raises e)
    end.
Proof.
  unfold Fallible.clear_completed, clear_completed, save_tasks, mbind, Fallible.M_bind. simpl.
  by destruct (Fallible.write_error env (filename self)).
Qed.


End FallibleStore.

(** ** The interpreter where writes can fail *)

Section FallibleInterpreter.

Variable env : Fallible.Env.
Variable unicode_lower : list N → list N.
Variable unicode_int : list N → option Z.

Lemma print_written (text : list N) (out : list (list N)) (app : TodoApp) (fs : FS) :
  Fallible.stdout_error env text = None →
  Fallible.print env text (out, app, fs) = ((out ++ [text], app, fs), Fallible.Returns tt).
Proof. intros H. unfold Fallible.print. by rewrite H. Qed.

Lemma print_each_written (texts out : list (list N)) (app : TodoApp) (fs : FS) :
  Forall (λ text, Fallible.stdout_error env text = None) texts →
  Fallible.print_each env texts (out, app, fs) = ((out ++ texts, app, fs), Fallible.Returns tt).
Proof.
  intros H. revert out. induction H as [|text texts Htext _ IH]; intros out.
  - by rewrite app_nil_r.
  - cbn [Fallible.print_each]. unfold mbind, Fallible.M_bind, mret, Fallible.M_ret.
    rewrite print_written by done. rewrite IH. by rewrite <- app_assoc.
Qed.

(** Where the file of the store can be written and standard output takes
    what the turn prints, the turn does what [turn] says. *)
Lemma turn_agrees (line : list N) (out : list (list N)) (app : TodoApp) (fs : FS) :
  Fallible.write_error env (filename app) = None →
  Forall (λ text, Fallible.stdout_error env text = None)
    (turn unicode_lower unicode_int line app fs).1.1.2 →
  Fallible.turn env unicode_lower unicode_int line (out, app, fs)
  = ((out ++ (turn unicode_lower unicode_int line app fs).1.1.2,
      (turn unicode_lower unicode_int line app fs).1.2,
      (turn unicode_lower unicode_int line app fs).2),
     Fallible.Returns (turn unicode_lower unicode_int line app fs).1.1.1).
Proof.
  intros Hw. unfold Fallible.turn, turn.
  set (command := lower unicode_lower (strip line)).
  destruct (decide (command = u "h")).
  { simpl. intros Hp%Forall_inv. unfold mbind, Fallible.M_bind, mret, Fallible.M_ret.
    by rewrite print_written. }
  destruct (startswith (u "a ") command).
  { unfold mbind, Fallible.M_bind, mret, Fallible.M_ret. rewrite add_task_outcome, Hw.
    destruct (add_task (drop 2 command) app fs) as [app' fs']. cbn [fst snd].
    intros Hp%Forall_inv. by rewrite print_written. }
  destruct (decide (command = u "l")).
  { simpl. intros [Hp1 Hp2]%Forall_app. unfold mbind, Fallible.M_bind, mret, Fallible.M_ret. simpl.
    unfold list_tasks in *.
    destruct (decide (tasks app = [])).
    - apply Forall_inv in Hp1. rewrite print_written by done.
      rewrite print_each_written by done. by rewrite <- app_assoc.
    - simpl. rewrite print_each_written by done. done. }
  destruct (startswith (u "c ") command).
  { unfold mbind, Fallible.M_bind, mret, Fallible.M_ret, Fallible.try_except, Fallible.int.
    destruct (py_int unicode_int (drop 2 command)) as [task_id|]; simpl.
    - rewrite mark_complete_outcome.
      destruct (mark_complete task_id app fs) as [[found app'] fs'] eqn:E. simpl.
      intros Hp%Forall_inv.
      destruct found; [rewrite Hw; by rewrite print_written|].
      assert (app' = app ∧ fs' = fs) as [-> ->].
      { unfold mark_complete in E.
        destruct (first_with_id task_id (tasks app)) as [[? ?]|]; by simplify_eq. }
      by rewrite print_written.
    - intros Hp%Forall_inv. by rewrite Hp. }
  destruct (startswith (u "d ") command).
  { unfold mbind, Fallible.M_bind, mret, Fallible.M_ret, Fallible.try_except, Fallible.int.
    destruct (py_int unicode_int (drop 2 command)) as [task_id|]; simpl.
    - destruct (delete_task_outcome env task_id out app fs)
        as (found & app' & fs' & Hdel & ->).
      rewrite Hdel. simpl. intros Hp%Forall_inv.
      destruct found; [rewrite Hw; by rewrite print_written|].
      assert (app' = app ∧ fs' = fs) as [-> ->].
      { unfold delete_task in Hdel.
        destruct (first_with_id task_id (tasks app)) as [[? ?]|]; [|by simplify_eq].
        destruct (remove _ _); by simplify_eq. }
      by rewrite print_written.
    - intros Hp%Forall_inv. by rewrite Hp. }
  destruct (decide (command = u "x")).
  { unfold mbind, Fallible.M_bind, mret, Fallible.M_ret. rewrite clear_completed_outcome, Hw.
    destruct (clear_completed app fs) as [app' fs']. cbn [fst snd].
    intros Hp%Forall_inv. by rewrite print_written. }
  destruct (decide (command = u "s")).
  { cbn [fst snd]. intros Hp. apply Forall_cons in Hp as [Hp1 Hp2]. apply Forall_inv in Hp2.
    unfold mbind, Fallible.M_bind, mret, Fallible.M_ret, Fallible.get_stats.
    rewrite print_written by done. rewrite print_written by done.
    by rewrite <- app_assoc. }
  destruct (decide (command = u "q")).
  { simpl. intros _. by rewrite app_nil_r. }
  cbn [fst snd]. intros Hp%Forall_inv. unfold mbind, Fallible.M_bind, mret, Fallible.M_ret.
  by rewrite print_written.
Qed.


Lemma turn_filename (line : list N) (app : TodoApp) (fs : FS) :
  filename (turn unicode_lower unicode_int line app fs).1.2 = filename app.
Proof.
  destruct (turn_operations unicode_lower unicode_int line app fs) as (os & _ & Hos).
  destruct (run_operations_effect os app fs) as (app' & fs' & Hrun & Hname & _).
  rewrite Hos in Hrun. by injection Hrun as <- <-.
Qed.

(** The same for the loop. *)
Lemma loop_agrees (lines : list (list N)) (out : list (list N)) (app : TodoApp) (fs : FS) :
  Fallible.write_error env (filename app) = None →
  Forall (λ text, Fallible.stdout_error env text = None)
    (loop unicode_lower unicode_int lines app fs).1.1.2 →
  Fallible.loop env unicode_lower unicode_int lines (out, app, fs)
  = ((out ++ (loop unicode_lower unicode_int lines app fs).1.1.2,
      (loop unicode_lower unicode_int lines app fs).1.2,
      (loop unicode_lower unicode_int lines app fs).2),
     ending_result (loop unicode_lower unicode_int lines app fs).1.1.1).
Proof.
  revert out app fs. induction lines as [|line lines IH]; intros out app fs Hw.
  - cbn [loop fst snd Fallible.loop]. intros Hp%Forall_inv.
    unfold mbind, Fallible.M_bind. by rewrite print_written.
  - cbn [loop Fallible.loop].
    pose proof (turn_agrees line (out ++ [prompt]) app fs Hw) as Hturn.
    pose proof (turn_filename line app fs) as Hname.
    destruct (turn unicode_lower unicode_int line app fs) as [[[again printed] app1] fs1].
    cbn [fst snd] in Hturn, Hname.
    destruct again.
    + specialize (IH ((out ++ [prompt]) ++ printed) app1 fs1).
      destruct (loop unicode_lower unicode_int lines app1 fs1) as [[[e printed'] app2] fs2].
      cbn [fst snd] in *. intros Hp.
      apply Forall_cons in Hp as [Hprompt Hp]. apply Forall_app in Hp as [Hp1 Hp2].
      unfold mbind, Fallible.M_bind. rewrite print_written by done.
      rewrite Hturn by done. rewrite IH by (by rewrite ?Hname).
      by rewrite <- !app_assoc.
    + cbn [fst snd]. intros Hp. apply Forall_cons in Hp as [Hprompt Hp].
      unfold mbind, Fallible.M_bind. rewrite print_written by done.
      rewrite Hturn by done. by rewrite <- !app_assoc.
Qed.

End FallibleInterpreter.

(** *** What a call returns and raises *)

Section Behaviour.

Variable env : Fallible.Env.
Variable unicode_lower : list N → list N.
Variable unicode_int : list N → option Z.

Lemma behaves_ret {A : Type} (R : A → Prop) Q (a : A) : R a → behaves R Q (mret a).
Proof. by intros Ha s. Qed.

Lemma behaves_bind {A B : Type} (R1 : A → Prop) (R : B → Prop) Q
    (m : Fallible.M A) (f : A → Fallible.M B) :
  behaves R1 Q m → (∀ a, R1 a → behaves R Q (f a)) → behaves R Q (m ≫= f).
Proof.
  intros Hm Hf s. unfold mbind, Fallible.M_bind.
  destruct (Hm s) as [Hname Hr]. destruct (m s) as [s1 [a|e]]; simpl in *; [|done].
  destruct (Hf a Hr s1) as [Hname' Hr']. rewrite <- Hname. by rewrite Hname'.
Qed.

Lemma behaves_weaken {A : Type} (R R' : A → Prop) (Q Q' : list N → Fallible.exception → Prop)
    (m : Fallible.M A) :
  behaves R Q m → (∀ a, R a → R' a) → (∀ name e, Q name e → Q' name e) → behaves R' Q' m.
Proof.
  intros Hm HR HQ s. destruct (Hm s) as [Hname Hr]. split; [done|].
  destruct (m s).2; auto.
Qed.

Lemma behaves_try_except {A : Type} (R : A → Prop) Q (body handler : Fallible.M A) :
  behaves R (λ name e, Q name e ∨ Fallible.is_ValueError e = true) body →
  behaves R Q handler →
  behaves R Q (Fallible.try_except body Fallible.is_ValueError handler).
Proof.
  intros Hbody Hhandler s. unfold Fallible.try_except.
  destruct (Hbody s) as [Hname Hr]. destruct (body s) as [s1 [a|e]]; simpl in *; [done|].
  destruct (Fallible.is_ValueError e) eqn:Ee.
  - destruct (Hhandler s1) as [Hname' Hr']. rewrite <- Hname. by rewrite Hname'.
  - simpl. by destruct Hr.
Qed.

Lemma behaves_print (text : list N) :
  behaves (λ _, True) (raised_by env) (Fallible.print env text).
Proof.
  intros [[out app] fs]. unfold Fallible.print.
  destruct (Fallible.stdout_error env text) as [e|] eqn:E; simpl; [|done].
  split; [done|]. right. by exists text.
Qed.

Lemma behaves_print_each (texts : list (list N)) :
  behaves (λ _, True) (raised_by env) (Fallible.print_each env texts).
Proof.
  induction texts as [|text texts IH]; [by apply behaves_ret|].
  cbn [Fallible.print_each]. eapply behaves_bind; [apply behaves_print|done].
Qed.

Lemma behaves_save_tasks :
  behaves (λ _, True) (raised_by env) (Fallible.save_tasks env).
Proof.
  intros [[out app] fs]. unfold Fallible.save_tasks.
  destruct (Fallible.write_error env (filename app)) as [e|] eqn:E; simpl; [|done].
  split; [done|]. by left.
Qed.

Lemma behaves_get_tasks Q : behaves (λ _, True) Q Fallible.get_tasks.
Proof. by intros [[out app] fs]. Qed.

Lemma behaves_set_tasks Q (l : list Task) : behaves (λ _, True) Q (Fallible.set_tasks l).
Proof. by intros [[out app] fs]. Qed.

Lemma behaves_get_stats Q : behaves (λ _, True) Q Fallible.get_stats.
Proof. by intros [[out app] fs]. Qed.

Lemma behaves_saving {A : Type} (a : A) (l : list Task) :
  behaves (λ _, True) (raised_by env)
    (Fallible.set_tasks l;; Fallible.save_tasks env;; mret a).
Proof.
  eapply behaves_bind; [apply behaves_set_tasks|]. intros _ _.
  eapply behaves_bind; [apply behaves_save_tasks|]. intros _ _. by apply behaves_ret.
Qed.

Lemma behaves_add_task (d : list N) :
  behaves (λ _, True) (raised_by env) (Fallible.add_task env d).
Proof.
  unfold Fallible.add_task.
  eapply behaves_bind; [apply behaves_get_tasks|]. intros l _.
  eapply behaves_bind; [apply behaves_set_tasks|]. intros _ _. apply behaves_save_tasks.
Qed.

Lemma behaves_mark_complete (task_id : Z) :
  behaves (λ _, True) (raised_by env) (Fallible.mark_complete env task_id).
Proof.
  unfold Fallible.mark_complete.
  eapply behaves_bind; [apply behaves_get_tasks|]. intros l _.
  destruct (first_with_id task_id l) as [[i task]|]; [|by apply behaves_ret].
  apply behaves_saving.
Qed.

Lemma behaves_delete_task (task_id : Z) :
  behaves (λ _, True) (λ name e, raised_by env name e ∨ Fallible.is_ValueError e = true)
    (Fallible.delete_task env task_id).
Proof.
  unfold Fallible.delete_task.
  eapply behaves_bind; [apply behaves_get_tasks|]. intros l _.
  destruct (first_with_id task_id l) as [[i task]|]; [|by apply behaves_ret].
  destruct (remove task l) as [l'|].
  - eapply behaves_weaken; [apply behaves_saving|done|]. by left.
  - intros s. split; [done|]. by right.
Qed.

Lemma behaves_clear_completed :
  behaves (λ _, True) (raised_by env) (Fallible.clear_completed env).
Proof.
  unfold Fallible.clear_completed.
  eapply behaves_bind; [apply behaves_get_tasks|]. intros l _.
  eapply behaves_bind; [apply behaves_set_tasks|]. intros _ _. apply behaves_save_tasks.
Qed.

Lemma behaves_int (s : list N) :
  behaves (λ _, True) (λ name e, raised_by env name e ∨ Fallible.is_ValueError e = true)
    (Fallible.int unicode_int s).
Proof.
  unfold Fallible.int. destruct (py_int unicode_int s); [by apply behaves_ret|].
  intros st. split; [done|]. by right.
Qed.

Local Ltac step :=
  first [ apply behaves_print | apply behaves_print_each | apply behaves_add_task
        | apply behaves_mark_complete | apply behaves_clear_completed
        | apply behaves_get_tasks | apply behaves_get_stats
        | by apply behaves_ret ].

(** A turn on a line that is not [q] returns [True], or raises an exception
    that the environment raised. *)
Lemma behaves_turn (line : list N) :
  ¬ quits unicode_lower line →
  behaves (λ again, again = true) (raised_by env)
    (Fallible.turn env unicode_lower unicode_int line).
Proof.
  unfold quits, Fallible.turn. set (command := lower unicode_lower (strip line)). intros Hq.
  destruct (decide (command = u "h")).
  { eapply behaves_bind; [step|]. intros; step. }
  destruct (startswith (u "a ") command).
  { eapply behaves_bind; [step|]. intros _ _.
    eapply behaves_bind; [step|]. intros; step. }
  destruct (decide (command = u "l")).
  { eapply behaves_bind; [apply behaves_get_tasks|]. intros l _.
    eapply behaves_bind; [destruct (decide (l = [])); step|]. intros _ _.
    eapply behaves_bind; [step|]. intros; step. }
  destruct (startswith (u "c ") command).
  { eapply behaves_bind; [|intros; step].
    apply behaves_try_except; [|step].
    eapply behaves_bind; [apply behaves_int|]. intros task_id _.
    eapply behaves_weaken with (R := λ _, True); [|done|intros; by left].
    eapply behaves_bind; [step|]. intros found _. destruct found; step. }
  destruct (startswith (u "d ") command).
  { eapply behaves_bind; [|intros; step].
    apply behaves_try_except; [|step].
    eapply behaves_bind; [apply behaves_int|]. intros task_id _.
    eapply behaves_bind; [apply behaves_delete_task|]. intros found _.
    eapply behaves_weaken with (R := λ _, True); [|done|intros; by left].
    destruct found; step. }
  destruct (decide (command = u "x")).
  { eapply behaves_bind; [step|]. intros _ _.
    eapply behaves_bind; [step|]. intros; step. }
  destruct (decide (command = u "s")).
  { eapply behaves_bind; [step|]. intros stats _.
    eapply behaves_bind; [step|]. intros _ _.
    eapply behaves_bind; [step|]. intros; step. }
  rewrite decide_False by done.
  eapply behaves_bind; [step|]. intros; step.
Qed.

End Behaviour.

(** ** How the loop ends *)

Section Endings.

Variable env : Fallible.Env.
Variable unicode_lower : list N → list N.
Variable unicode_int : list N → option Z.

Lemma turn_quits (line : list N) (s : Fallible.state) :
  quits unicode_lower line →
  Fallible.turn env unicode_lower unicode_int line s = (s, Fallible.Returns false).
Proof.
  unfold quits, Fallible.turn. generalize (lower unicode_lower (strip line)).
  intros command ->. reflexivity.
Qed.

(** X13.  One turn of the loop ends the loop exactly when the trimmed,
    lower-cased line is [q], and that turn writes and prints nothing.  A
    turn raises nothing of its own: an exception that leaves it was raised
    by the environment, on opening the file of the store for writing or on
    writing to standard output. *)
Theorem turn_breaks_only_on_q (line : list N) (s : Fallible.state) :
  ((Fallible.turn env unicode_lower unicode_int line s).2 = Fallible.Returns false
     ↔ quits unicode_lower line)
  ∧ (quits unicode_lower line →
     Fallible.turn env unicode_lower unicode_int line s = (s, Fallible.Returns false))
  ∧ (∀ e, (Fallible.turn env unicode_lower unicode_int line s).2 = Fallible.Raises e →
       raised_by env (filename s.1.2) e).
Proof.
  destruct (decide (quits unicode_lower line)) as [Hq|Hq].
  - rewrite (turn_quits line s Hq). simpl. split_and!; [done|done|done].
  - destruct (behaves_turn env unicode_lower unicode_int line Hq s) as [_ H].
    destruct (Fallible.turn env unicode_lower unicode_int line s) as [s' [again|e]];
      simpl in *; subst; split_and!; try done.
    + intros e' [= ->]. done.
Qed.

Lemma behaves_loop (lines : list (list N)) :
  behaves (λ _, Exists (quits unicode_lower) lines)
    (λ name e, e = Fallible.EOFError ∨ raised_by env name e)
    (Fallible.loop env unicode_lower unicode_int lines).
Proof.
  induction lines as [|line lines IH]; cbn [Fallible.loop].
  - eapply behaves_bind.
    + eapply behaves_weaken; [apply behaves_print|done|]. intros; by right.
    + intros _ _ s. split; [done|]. by left.
  - eapply behaves_bind.
    { eapply behaves_weaken; [apply behaves_print|done|]. intros; by right. }
    intros _ _. destruct (decide (quits unicode_lower line)) as [Hq|Hq].
    + intros s. unfold mbind, Fallible.M_bind. rewrite (turn_quits line s Hq).
      split; [done|]. simpl. by left.
    + eapply behaves_bind.
      { eapply behaves_weaken; [by apply behaves_turn|done|]. intros; by right. }
      intros again ->. eapply behaves_weaken; [apply IH| |done].
      intros ? H. by right.
Qed.


(** X14.  The loop returns only when some line is a [q] command.  An
    exception that ends it is the [EOFError] of [input], or was raised by
    the environment on opening the file of the store for writing or on
    writing to standard output.  Where the file can be written and standard
    output takes every text, the loop returns exactly when some line is a
    [q] command, and ends in [EOFError] exactly when none is. *)
Theorem loop_returns_only_on_q (lines : list (list N)) (s : Fallible.state) :
  ((Fallible.loop env unicode_lower unicode_int lines s).2 = Fallible.Returns tt →
     Exists (quits unicode_lower) lines)
  ∧ (∀ e, (Fallible.loop env unicode_lower unicode_int lines s).2 = Fallible.Raises e →
       e = Fallible.EOFError ∨ raised_by env (filename s.1.2) e)
  ∧ (Fallible.write_error env (filename s.1.2) = None →
     (∀ text, Fallible.stdout_error env text = None) →
     ((Fallible.loop env unicode_lower unicode_int lines s).2 = Fallible.Returns tt
        ↔ Exists (quits unicode_lower) lines)
     ∧ ((Fallible.loop env unicode_lower unicode_int lines s).2
          = Fallible.Raises Fallible.EOFError
        ↔ Forall (λ line, ¬ quits unicode_lower line) lines)).
Proof.
  split_and!.
  - intros H. destruct (behaves_loop lines s) as [_ Hr]. by rewrite H in Hr.
  - intros e H. destruct (behaves_loop lines s) as [_ Hr]. by rewrite H in Hr.
  - intros Hw Hout. destruct s as [[out app] fs]. cbn [fst snd] in Hw.
    rewrite loop_agrees by (by try apply Forall_forall). cbn [snd].
    destruct (loop_ending_quits unicode_lower unicode_int lines app fs) as [H1 H2].
    rewrite <- H1, <- H2.
    by destruct (loop unicode_lower unicode_int lines app fs).1.1.1.
Qed.



End Endings.

(** ** json.load and the recursion limit *)


(** X22.  Whatever room the scanner has, some file is too deep for it: a
    readable file that starts with one opening bracket more than there is
    room for makes the constructor raise [RecursionError], whatever follows
    the brackets (text that closes them all, which is json, included), and
    [main] ends before its loop. *)
Theorem deep_nesting_raises (env : Fallible.Env) (name : list N) (fs : FS) (t : list N) :
  fs !! name = Some (repeat 91%N (S (Fallible.recursion_room env)) ++ t) →
  Fallible.read_error env name = None →
  Fallible.__init__ env name fs = Fallible.Raises Fallible.RecursionError
  ∧ (name = u "tasks.json" →
     ∀ unicode_lower unicode_int lines,
       Fallible.main env unicode_lower unicode_int lines fs
       = Some ([], fs, Fallible.Raises Fallible.RecursionError)).
Proof.
  intros Hfile Hread.
  assert (Fallible.__init__ env name fs = Fallible.Raises Fallible.RecursionError) as Hinit.
  { unfold Fallible.__init__, Fallible.load_tasks.
    by rewrite Hfile, Hread, json_loads_within_deep. }
  split; [done|]. intros -> unicode_lower unicode_int lines.
  unfold Fallible.main. by rewrite Hinit.
Qed.

Lemma deep_nesting_raises_witness :
  let env := Fallible.mkEnv 2 (λ _, None) (λ _, None) (λ _, None) in
  let fs : FS := {[ u "tasks.json" := u "[[[1]]]" ]} in
  Fallible.__init__ env (u "tasks.json") fs = Fallible.Raises Fallible.RecursionError
  ∧ (u "tasks.json" = u "tasks.json" →
     ∀ unicode_lower unicode_int lines,
       Fallible.main env unicode_lower unicode_int lines fs
       = Some ([], fs, Fallible.Raises Fallible.RecursionError)).
Proof.
  apply (deep_nesting_raises (Fallible.mkEnv 2 (λ _, None) (λ _, None) (λ _, None))
           (u "tasks.json") {[ u "tasks.json" := u "[[[1]]]" ]} (u "1]]]"));
    by vm_compute.
Defined.

(** X23.  The files the program writes are never too deep: where the
    scanner has room for an array of objects and the file can be written
    and read, saving and then opening a store on the same path gives the
    saved store back (no description having a high surrogate directly
    before a low one). *)
Theorem reload_after_save_in_environment
    (env : Fallible.Env) (out : list (list N)) (self : TodoApp) (fs : FS) :
  2 ≤ Fallible.recursion_room env →
  Fallible.write_error env (filename self) = None →
  Fallible.read_error env (filename self) = None →
  Forall (λ task, plain (description task)) (tasks self) →
  Fallible.save_tasks env (out, self, fs) = ((out, self, save_tasks self fs), Fallible.Returns tt)
  ∧ Fallible.__init__ env (filename self) (save_tasks self fs) = Fallible.Returns (Some self).
Proof.
  intros Hroom Hwrite Hread Hplain. split.
  - unfold Fallible.save_tasks. by rewrite Hwrite.
  - unfold Fallible.__init__, Fallible.load_tasks, save_tasks.
    rewrite lookup_insert_eq, Hread.
    destruct (Fallible.recursion_room env) as [|[|room]]; [lia..|].
    rewrite (json_loads_within_dumps _ _ Hplain), tasks_of_value_of_tasks.
    by destruct self.
Qed.

Lemma reload_after_save_in_environment_witness :
  let env := Fallible.mkEnv 2 (λ _, None) (λ _, None) (λ _, None) in
  let self := {| filename := u "tasks.json";
                 tasks := [ mkTask 1 [99; 97; 102; 233]%N false; mkTask 2 (u "b") true ] |} in
  Fallible.save_tasks env ([], self, ∅) = (([], self, save_tasks self ∅), Fallible.Returns tt)
  ∧ Fallible.__init__ env (filename self) (save_tasks self ∅) = Fallible.Returns (Some self).
Proof.
  apply (reload_after_save_in_environment
           (Fallible.mkEnv 2 (λ _, None) (λ _, None) (λ _, None)) []
           {| filename := u "tasks.json";
              tasks := [ mkTask 1 [99; 97; 102; 233]%N false; mkTask 2 (u "b") true ] |} ∅);
    [simpl; lia | reflexivity | reflexivity | repeat (constructor; try done)].
Defined.



Section Listing.

Variable env : Fallible.Env.
Variable unicode_lower : list N → list N.
Variable unicode_int : list N → option Z.

Lemma print_each_raises (texts out : list (list N)) (app : TodoApp) (fs : FS) :
  Exists (λ text, Fallible.stdout_error env text ≠ None) texts →
  ∃ before text after e,
    texts = before ++ text :: after
    ∧ Forall (λ text, Fallible.stdout_error env text = None) before
    ∧ Fallible.stdout_error env text = Some e
    ∧ Fallible.print_each env texts (out, app, fs) = ((out ++ before, app, fs), Fallible.Raises e).
Proof.
  intros H. revert out. induction texts as [|text texts IH]; intros out; [by apply Exists_nil in H|].
  cbn [Fallible.print_each]. unfold mbind, Fallible.M_bind, Fallible.print.
  destruct (Fallible.stdout_error env text) as [e|] eqn:E.
  - exists [], text, texts, e. by rewrite app_nil_r.
  - apply Exists_cons in H as [H|H]; [done|].
    destruct (IH H (out ++ [text])) as (before & text' & after & e & -> & Hb & He & Hrun).
    exists (text :: before), text', after, e. split_and!; [done|by constructor|done|].
    fold (Fallible.print_each env). rewrite Hrun. by rewrite <- app_assoc.
Qed.

(** X25.  The [l] command ends the program when standard output does not
    take the line of some task (a task marked [✓] where the encoding has no
    such character, a description with a lone surrogate): the lines of the
    tasks before it are written, the exception is the one standard output
    raised on that line, and store and files are unchanged. *)
Theorem list_command_raises (line : list N) (out : list (list N)) (app : TodoApp) (fs : FS) :
  lower unicode_lower (strip line) = u "l" →
  Exists (λ task, Fallible.stdout_error env (task_line task) ≠ None) (tasks app) →
  ∃ before task after e,
    tasks app = before ++ task :: after
    ∧ Forall (λ task, Fallible.stdout_error env (task_line task) = None) before
    ∧ Fallible.stdout_error env (task_line task) = Some e
    ∧ Fallible.turn env unicode_lower unicode_int line (out, app, fs)
      = ((out ++ (task_line <$> before), app, fs), Fallible.Raises e).
Proof.
  intros Hl Hex. unfold Fallible.turn. rewrite Hl.
  destruct (decide (u "l" = u "h")) as [E|_]; [discriminate E|].
  change (startswith (u "a ") (u "l")) with false. cbv iota.
  destruct (decide (u "l" = u "l")) as [_|E]; [|done].
  unfold mbind, Fallible.M_bind, Fallible.list_tasks, Fallible.get_tasks.
  destruct (decide (tasks app = [])) as [E|_]; [rewrite E in Hex; by apply Exists_nil in Hex|].
  unfold mret at 1, Fallible.M_ret at 1.
  destruct (print_each_raises (task_line <$> tasks app) out app fs)
    as (before & text & after & e & Hsplit & Hbefore & He & Hrun).
  { apply Exists_fmap. eapply Exists_impl; [exact Hex|]. done. }
  rewrite Hrun.
  apply fmap_app_inv in Hsplit as (before' & rest & -> & Hrest & Hsplit).
  symmetry in Hrest. apply fmap_cons_inv in Hrest as (task & after' & -> & -> & ->).
  exists before', task, after', e. split_and!; [done| |done|done].
  by apply Forall_fmap in Hbefore.
Qed.

End Listing.

Lemma list_command_raises_witness :
  let env := Fallible.mkEnv 2 (λ _, None) (λ _, None)
               (λ text, if is_ascii text then None else Some Fallible.UnicodeEncodeError) in
  let app := mkTodoApp (u "tasks.json")
               [mkTask 1 (u "a") false; mkTask 2 (u "b") true; mkTask 3 (u "c") false] in
  ∃ before task after e,
    tasks app = before ++ task :: after
    ∧ Forall (λ task, Fallible.stdout_error env (task_line task) = None) before
    ∧ Fallible.stdout_error env (task_line task) = Some e
    ∧ Fallible.turn env (λ s, s) (λ _, None) (u " L ") ([], app, ∅)
      = (([] ++ (task_line <$> before), app, ∅), Fallible.Raises e).
Proof.
  apply (list_command_raises
           (Fallible.mkEnv 2 (λ _, None) (λ _, None)
              (λ text, if is_ascii text then None else Some Fallible.UnicodeEncodeError))
           (λ s, s) (λ _, None) (u " L ") []
           (mkTodoApp (u "tasks.json")
              [mkTask 1 (u "a") false; mkTask 2 (u "b") true; mkTask 3 (u "c") false]) ∅).
  - reflexivity.
  - apply Exists_cons_tl, Exists_cons_hd. discriminate.
Defined.
